(** * Layer.js: a shallow embedding of maptalks' base layer class

    The development follows [src/layer/Layer.js].  A layer is a JavaScript
    object whose methods mutate it, call into its collaborators (the owning
    map, the renderer, the mask geometry, the collision index) and fire
    events.  The embedding is a state-and-exception monad over a [World]
    that holds the layer, the one map it may be attached to, the heap of
    collision indexes and the log of the calls made to collaborators.

    Numbers are rationals ([Q]), and the two arithmetic operations of the
    file, the [+ 1] of [bringToFront] and the [- 1] of [bringToBack], round
    their result to the nearest binary64 value as IEEE 754 does; NaN and the
    infinities (other than the literal [Infinity] of [getMaxZoom]) are
    outside the model.  Option values have the types of the JSDoc block at
    the head of the source file, each extended with JavaScript's two nil
    values. *)

From Stdlib Require Import QArith Qminmax Lqa Sorted Qabs.
From stdpp Require Import base option list gmap strings.

Local Open Scope string_scope.
Local Open Scope list_scope.

(** ** JavaScript values *)

(** A value of type [A], or one of the two nil values. *)
Inductive Nilable (A : Type) : Type :=
| undefined
| null
| val (a : A).
Arguments undefined {A}.
Arguments null {A}.
Arguments val {A} a.

(** [isNil] of core/util: [obj == null]. *)
Definition isNil {A : Type} (v : Nilable A) : bool :=
  match v with
  | val _ => false
  | _ => true
  end.

(** [isNumber] of core/util, on a numeric option. *)
Definition isNumber (v : Nilable Q) : bool :=
  match v with
  | val _ => true
  | _ => false
  end.

Definition Qltb (a b : Q) : bool := negb (Qle_bool b a).

(** Relational operators with a number on the right: [null] converts to 0,
    [undefined] to NaN, on which every comparison is false. *)
Definition js_le (a : Nilable Q) (b : Q) : bool :=
  match a with
  | val q => Qle_bool q b
  | null => Qle_bool 0 b
  | undefined => false
  end.

Definition js_lt (a : Nilable Q) (b : Q) : bool :=
  match a with
  | val q => Qltb q b
  | null => Qltb 0 b
  | undefined => false
  end.

Definition js_gt (a : Nilable Q) (b : Q) : bool :=
  match a with
  | val q => Qltb b q
  | null => Qltb b 0
  | undefined => false
  end.

(** [x || 0] on a numeric value: nil and zero are falsy. *)
Definition or_zero (x : Nilable Q) : Q :=
  match x with
  | val q => if Qeq_bool q 0 then 0%Q else q
  | _ => 0%Q
  end.

(** Truthiness of a boolean option value. *)
Definition truthy (v : Nilable bool) : bool :=
  match v with
  | val b => b
  | _ => false
  end.

Definition Math_max (a b : Q) : Q := if Qle_bool a b then b else a.

(** The second operand of [Math.min] in [getMaxZoom] may be the literal
    [Infinity]. *)
Inductive Ext : Type :=
| Fin (q : Q)
| Infinity.

Definition Math_min (a : Q) (b : Ext) : Q :=
  match b with
  | Infinity => a
  | Fin q => if Qle_bool a q then a else q
  end.

(** *** Arithmetic

    A JavaScript number is an IEEE 754 binary64 value, and a sum or a
    difference is the exact result rounded to the nearest such value, ties
    to the one with an even significand.  Numbers are kept as rationals here;
    [round_double] is that rounding: 53 bits of significand, exponents from
    -1074 up.  NaN and the infinities are not numbers of the model; a finite
    binary64 value plus or minus 1 never overflows. *)

(** The nearest integer, ties to even. *)
Definition round_half_even (x : Q) : Z :=
  let n := Qnum x in
  let d := Zpos (Qden x) in
  let fl := (n / d)%Z in
  match (2 * (n mod d) ?= d)%Z with
  | Lt => fl
  | Gt => (fl + 1)%Z
  | Eq => if Z.even fl then fl else (fl + 1)%Z
  end.

(** [x * 2^q], for an exponent of either sign. *)
Definition scale2 (x : Q) (q : Z) : Q :=
  if (0 <=? q)%Z then (x * inject_Z (2 ^ q))%Q else (x / inject_Z (2 ^ (- q)))%Q.

(** The exponent [e] with [2^e <= |x| < 2^(e+1)], for [x] other than 0. *)
Definition binade (x : Q) : Z :=
  let e := (Z.log2 (Z.abs (Qnum x)) - Z.log2 (Zpos (Qden x)))%Z in
  if Qle_bool (scale2 1 e) (Qabs x) then e else (e - 1)%Z.

Definition round_double (x : Q) : Q :=
  if Qeq_bool x 0 then 0%Q
  else
    let q := Z.max (binade x - 52) (-1074) in
    scale2 (inject_Z (round_half_even (scale2 x (- q)))) q.

(** [a + b] and [a - b] on numbers. *)
Definition js_add (a b : Q) : Q := round_double (a + b).
Definition js_sub (a b : Q) : Q := round_double (a - b).

(** String conversion of an id in [s + t]. *)
Definition to_str (v : Nilable string) : string :=
  match v with
  | undefined => "undefined"
  | null => "null"
  | val s => s
  end.

(** ** Objects *)

(** The layers a map holds: the layer under study, or one of its siblings,
    of which this file reads the identity and [getZIndex()]. *)
Record Sibling : Type := mkSibling {
  sibling_key : nat;
  sibling_zIndex : Nilable Q
}.

Inductive LayerRef : Type :=
| This
| Other (s : Sibling).

Definition is_this (l : LayerRef) : bool :=
  match l with
  | This => true
  | Other _ => false
  end.

Record RendererClass : Type := mkRendererClass {
  isCanvasRenderer : bool;                (* instanceof CanvasRenderer *)
  has_onAdd : bool;
  has_setToRedraw : bool;
  renderer_getEvents : option (list string)
}.

Record Renderer : Type := mkRenderer {
  clazz : RendererClass;
  layer : option LayerRef
}.

(** Values carried by event payloads and symbols. *)
Inductive Value : Type :=
| VUndefined
| VNull
| VBool (b : bool)
| VNum (q : Q)
| VStr (s : string)
| VLayer (l : LayerRef)
| VRenderer (r : Renderer).

Definition of_nilable {A : Type} (f : A -> Value) (v : Nilable A) : Value :=
  match v with
  | undefined => VUndefined
  | null => VNull
  | val a => f a
  end.

(** An event payload and a symbol are plain objects: string keys to values. *)
Abbreviation Payload := (gmap string Value).
Abbreviation Symbol := (gmap string Value).

Record GeometryJSON : Type := mkGeometryJSON {
  json_type : string;
  json_isVectorMarker : bool;
  json_symbol : Symbol
}.

(** A 2D extent, as the mask's painter reports it. *)
Definition Extent : Type := (Q * Q * Q * Q)%type.

Record Geometry : Type := mkGeometry {
  type : string;
  _isVectorMarker : bool;
  symbol : Symbol;
  _layer : option LayerRef;
  _maskPainter : option Extent            (* None: no painter *)
}.

Record Options : Type := mkOptions {
  minZoom : Nilable Q;
  maxZoom : Nilable Q;
  visible : Nilable bool;
  opacity : Nilable Q;
  renderer : string;
  collisionScope : Nilable string;
  zIndex : option Q;                      (* None: the key is absent *)
  mask : option GeometryJSON              (* None: the key is absent *)
}.

(** The class-level part of a layer: what subclasses override. *)
Record LayerClass : Type := mkLayerClass {
  getRendererClass : option (string -> option RendererClass);
  onLoad : bool;                          (* what the onLoad() hook returns *)
  getEvents : option (list string);
  _optionsHook : bool;                    (* present, and a function *)
  _silentConfig : bool
}.

(** The model has one map; a layer's back-reference is absent or that map. *)
Inductive MapRef : Type := TheMap.

Record Layer : Type := mkLayer {
  constructor : LayerClass;
  _id : Nilable string;
  _zIndex : Nilable Q;
  options : Options;
  map : option MapRef;
  _renderer : option Renderer;
  _mask : option Geometry;
  _collisionIndex : option nat;           (* a reference into [indexes] *)
  _loaded : bool
}.

(** A closure registered on the map: [() => { this.fire(eventType) }]. *)
Inductive Callback : Type :=
| CbFire (eventType : string).

Record Map : Type := mkMap {
  _layers : list LayerRef;
  map_zoom : Q;
  map_minZoom : Q;
  map_maxZoom : Q;
  map_zooming : bool;
  map_collisionIndex : nat;               (* a reference into [indexes] *)
  map_projection : string;
  once_listeners : list (string * Callback)
}.

Inductive Emitter : Type :=
| EmLayer
| EmRenderer.

(** Calls made to collaborators and to overridable hooks, in order. *)
Inductive Effect : Type :=
| MapOnLayerEvent (param : Payload)
| Dispatch (eventType : string) (param : option Payload)
| MapSortLayersByZIndex
| MapSwitch (to : string) (events : list string) (emitter : Emitter)
| RendererSetZIndex (z : Nilable Q)
| RendererShow
| RendererHide
| RendererRender
| RendererOnAdd
| RendererSetToRedraw
| RendererRemove
| HookOnLoad
| HookOnLoadEnd
| HookOnRendererCreate
| HookOnAdd
| HookOnRemove
| MaskBindLayer
| MaskUpdateSymbol (s : Symbol)
| MaskSetSymbol (s : Symbol)
| HookOptions (conf : gmap string Value)
| MapRemoveLayer
| ProxyOptions.

Record World : Type := mkWorld {
  this : Layer;
  the_map : Map;
  indexes : gmap nat (list nat);          (* the boxes of each CollisionIndex *)
  next_index : nat;                       (* the next fresh reference *)
  log : list Effect
}.

(** ** Field updates *)

Definition with_this (f : Layer -> Layer) (w : World) : World :=
  mkWorld (f (this w)) (the_map w) (indexes w) (next_index w) (log w).

Definition with_the_map (f : Map -> Map) (w : World) : World :=
  mkWorld (this w) (f (the_map w)) (indexes w) (next_index w) (log w).

Definition with_log (f : list Effect -> list Effect) (w : World) : World :=
  mkWorld (this w) (the_map w) (indexes w) (next_index w) (f (log w)).

Definition with_options (f : Options -> Options) (l : Layer) : Layer :=
  mkLayer (constructor l) (_id l) (_zIndex l) (f (options l)) (map l)
          (_renderer l) (_mask l) (_collisionIndex l) (_loaded l).

Definition set_id (v : Nilable string) (l : Layer) : Layer :=
  mkLayer (constructor l) v (_zIndex l) (options l) (map l)
          (_renderer l) (_mask l) (_collisionIndex l) (_loaded l).

Definition set_zIndex (v : Nilable Q) (l : Layer) : Layer :=
  mkLayer (constructor l) (_id l) v (options l) (map l)
          (_renderer l) (_mask l) (_collisionIndex l) (_loaded l).

Definition set_map (v : option MapRef) (l : Layer) : Layer :=
  mkLayer (constructor l) (_id l) (_zIndex l) (options l) v
          (_renderer l) (_mask l) (_collisionIndex l) (_loaded l).

Definition set_renderer (v : option Renderer) (l : Layer) : Layer :=
  mkLayer (constructor l) (_id l) (_zIndex l) (options l) (map l)
          v (_mask l) (_collisionIndex l) (_loaded l).

Definition set_mask (v : option Geometry) (l : Layer) : Layer :=
  mkLayer (constructor l) (_id l) (_zIndex l) (options l) (map l)
          (_renderer l) v (_collisionIndex l) (_loaded l).

Definition set_collisionIndex (v : option nat) (l : Layer) : Layer :=
  mkLayer (constructor l) (_id l) (_zIndex l) (options l) (map l)
          (_renderer l) (_mask l) v (_loaded l).

Definition set_loaded (v : bool) (l : Layer) : Layer :=
  mkLayer (constructor l) (_id l) (_zIndex l) (options l) (map l)
          (_renderer l) (_mask l) (_collisionIndex l) v.

Definition set_opt_visible (v : Nilable bool) (o : Options) : Options :=
  mkOptions (minZoom o) (maxZoom o) v (opacity o) (renderer o)
            (collisionScope o) (zIndex o) (mask o).

Definition set_opt_zIndex (v : option Q) (o : Options) : Options :=
  mkOptions (minZoom o) (maxZoom o) (visible o) (opacity o) (renderer o)
            (collisionScope o) v (mask o).

Definition set_opt_mask (v : option GeometryJSON) (o : Options) : Options :=
  mkOptions (minZoom o) (maxZoom o) (visible o) (opacity o) (renderer o)
            (collisionScope o) (zIndex o) v.

Definition set_opt_opacity (v : Nilable Q) (o : Options) : Options :=
  mkOptions (minZoom o) (maxZoom o) (visible o) v (renderer o)
            (collisionScope o) (zIndex o) (mask o).

Definition set_layers (v : list LayerRef) (m : Map) : Map :=
  mkMap v (map_zoom m) (map_minZoom m) (map_maxZoom m) (map_zooming m)
        (map_collisionIndex m) (map_projection m) (once_listeners m).

Definition set_once_listeners (v : list (string * Callback)) (m : Map) : Map :=
  mkMap (_layers m) (map_zoom m) (map_minZoom m) (map_maxZoom m)
        (map_zooming m) (map_collisionIndex m) (map_projection m) v.

Definition set_indexes (v : gmap nat (list nat)) (n : nat) (w : World) : World :=
  mkWorld (this w) (the_map w) v n (log w).

(** ** The monad: state, exceptions, and fuel for the recursion of [fire] *)

Inductive Exn : Type :=
| Error (message : string)
| TypeError.                              (* a member access on a nil value *)

Inductive Result (A : Type) : Type :=
| Ok (a : A) (w : World)
| Throw (e : Exn) (w : World)             (* [w]: the world when it was thrown *)
| OutOfFuel.
Arguments Ok {A} a w.
Arguments Throw {A} e w.
Arguments OutOfFuel {A}.

Definition M (A : Type) : Type := World -> Result A.

Definition ret {A : Type} (a : A) : M A := fun w => Ok a w.

Definition bind {A B : Type} (m : M A) (k : A -> M B) : M B :=
  fun w =>
    match m w with
    | Ok a w' => k a w'
    | Throw e w' => Throw e w'
    | OutOfFuel => OutOfFuel
    end.

#[global] Instance M_ret : MRet M := @ret.
#[global] Instance M_bind : MBind M := fun A B k m => bind m k.

Definition throw {A : Type} (e : Exn) : M A := fun w => Throw e w.
Definition gets {A : Type} (f : World -> A) : M A := fun w => Ok (f w) w.
Definition modify (f : World -> World) : M unit := fun w => Ok tt (f w).
Definition emit (e : Effect) : M unit := modify (with_log (fun l => l ++ [e])).
Definition when (b : bool) (m : M unit) : M unit := if b then m else ret tt.

Fixpoint forEach {A : Type} (l : list A) (f : A -> M unit) : M unit :=
  match l with
  | [] => ret tt
  | x :: l' => f x;; forEach l' f
  end.

(** ** Collaborators

    The map, the renderer, the geometry and the collision index are other
    files of the repository.  A method call on a nil receiver raises
    [TypeError]; the guards of Layer.js are what keeps that from happening. *)

(** Modelled from the spec: the viewport's [getZoom], [getMinZoom],
    [getMaxZoom], [isZooming] and [getCollisionIndex] (Map.js is not among the
    sources); each reads the corresponding datum of the map. *)
Definition Map_get {A : Type} (m : option MapRef) (f : Map -> A) : M A :=
  match m with
  | None => throw TypeError
  | Some TheMap => gets (fun w => f (the_map w))
  end.

(** What the subscribers of the layer's events do when they are called:
    those of the map's aggregator, which get the stamped payload, and the
    layer's own, which get the event type and the payload.  They run inside
    the call that reaches them, on the layer as it is at that moment, and may
    read it, change it or throw. *)
Record Subscribers : Type := mkSubscribers {
  on_layer_event : Payload -> M unit;
  on_dispatch : string -> option Payload -> M unit
}.

(** Subscribers that only look on. *)
Definition onlookers : Subscribers :=
  mkSubscribers (fun _ => ret tt) (fun _ _ => ret tt).

(** Modelled from the spec: the viewport's layer-event aggregator
    [_onLayerEvent] (Map.js): it receives the stamped payload, which the log
    records, and passes it to its subscribers. *)
Definition Map_onLayerEvent (subs : Subscribers) (m : option MapRef)
    (param : Payload) : M unit :=
  match m with
  | None => throw TypeError
  | Some TheMap => emit (MapOnLayerEvent param);; on_layer_event subs param
  end.

(** Modelled from the spec: the viewport's one-shot subscription primitive
    [once] (Eventable.js), which queues the callback for the next firing of
    the event. *)
Definition Map_once (m : option MapRef) (event : string) (cb : Callback) : M unit :=
  match m with
  | None => throw TypeError
  | Some TheMap =>
      modify (with_the_map (fun mp =>
        set_once_listeners (once_listeners mp ++ [(event, cb)]) mp))
  end.

(** Modelled from the spec: [on]/[off] of the viewport (Eventable.js), as
    used by [_switchEvents]. *)
Definition Map_switch (m : option MapRef) (to : string) (events : list string)
    (emitter : Emitter) : M unit :=
  match m with
  | None => throw TypeError
  | Some TheMap => emit (MapSwitch to events emitter)
  end.

(** [this._zIndex || 0], for this layer and for a sibling. *)
Definition zIndex_of (w : World) (l : LayerRef) : Q :=
  match l with
  | This => or_zero (_zIndex (this w))
  | Other s => or_zero (sibling_zIndex s)
  end.

(** Modelled from the spec: the viewport's [_sortLayersByZIndex] (Map.js), a
    re-sort of the layer list by z-index in which ties keep their previous
    order: a stable insertion sort on [getZIndex()]. *)
Fixpoint insert_by (key : LayerRef -> Q) (x : LayerRef) (l : list LayerRef)
    : list LayerRef :=
  match l with
  | [] => [x]
  | y :: l' =>
      if Qle_bool (key x) (key y) then x :: y :: l'
      else y :: insert_by key x l'
  end.

Definition sort_by (key : LayerRef -> Q) (l : list LayerRef) : list LayerRef :=
  foldr (insert_by key) [] l.

Definition Map_sortLayersByZIndex (m : option MapRef) : M unit :=
  match m with
  | None => throw TypeError
  | Some TheMap =>
      modify (fun w =>
        with_the_map (fun mp => set_layers (sort_by (zIndex_of w) (_layers mp)) mp) w);;
      emit MapSortLayersByZIndex
  end.

(** Modelled from the spec: the methods of the renderer ([setZIndex],
    [render], [show], [hide], [remove], and the optional [onAdd] and
    [setToRedraw]; the renderers are not among the sources).  A call is
    recorded in the log.  First, a method that every renderer has. *)
Definition Renderer_call (r : option Renderer) (e : Effect) : M unit :=
  match r with
  | None => throw TypeError
  | Some _ => emit e
  end.

(** A method that some renderers lack: calling it then raises. *)
Definition Renderer_call_optional (r : option Renderer)
    (has : RendererClass -> bool) (e : Effect) : M unit :=
  match r with
  | None => throw TypeError
  | Some r' => if has (clazz r') then emit e else throw TypeError
  end.

(** Modelled from the spec: the geometry's [_bindLayer], [updateSymbol],
    [setSymbol], [toJSON] and [Geometry.fromJSON] (Geometry.js): binding
    records the owner, [updateSymbol] merges the given properties into the
    symbol, [setSymbol] replaces it, and the serialized form keeps the kind
    and the symbol. *)
Definition Geometry_bindLayer (l : LayerRef) (g : Geometry) : Geometry :=
  mkGeometry (type g) (_isVectorMarker g) (symbol g) (Some l) (_maskPainter g).

Definition Geometry_updateSymbol (props : Symbol) (g : Geometry) : Geometry :=
  mkGeometry (type g) (_isVectorMarker g) (props ∪ symbol g) (_layer g)
             (_maskPainter g).

Definition Geometry_setSymbol (s : Symbol) (g : Geometry) : Geometry :=
  mkGeometry (type g) (_isVectorMarker g) s (_layer g) (_maskPainter g).

Definition Geometry_toJSON (g : Geometry) : GeometryJSON :=
  mkGeometryJSON (type g) (_isVectorMarker g) (symbol g).

Definition Geometry_fromJSON (j : GeometryJSON) : Geometry :=
  mkGeometry (json_type j) (json_isVectorMarker j) (json_symbol j) None None.

(** Modelled from the spec: [new CollisionIndex()] and its [clear()]
    (CollisionIndex.js): a fresh, empty index, and the emptying of one. *)
Definition CollisionIndex_new : M nat :=
  fun w =>
    let r := next_index w in
    Ok r (set_indexes (<[r := []]> (indexes w)) (S r) w).

Definition CollisionIndex_clear (r : option nat) : M unit :=
  match r with
  | None => throw TypeError
  | Some r' => modify (fun w => set_indexes (<[r' := []]> (indexes w)) (next_index w) w)
  end.

(** Modelled from the spec: [fire] of Eventable.js, the dispatch to the
    layer's own subscribers; it receives the caller's [arguments].  The
    dispatch is recorded in the log and the subscribers are called. *)
Definition Eventable_fire (subs : Subscribers) (eventType : string)
    (param : option Payload) : M unit :=
  emit (Dispatch eventType param);; on_dispatch subs eventType param.

(** ** Layer.js *)

(** [getMap()] *)
Definition getMap : M (option MapRef) :=
  m ← gets (fun w => map (this w));
  if m is Some _ then mret m else mret None.

(** [Layer.prototype.fire], for given subscribers: the recursion is the
    call that fires [visiblechange]. *)
Fixpoint fire_rec (subs : Subscribers) (fuel : nat) (eventType : string)
    (param : option Payload) : M LayerRef :=
  match fuel with
  | O => fun _ => OutOfFuel
  | S fuel' =>
      when (String.eqb eventType "layerload")
           (modify (with_this (set_loaded true)));;
      m ← gets (fun w => map (this w));
      (* the local variable [param] after the [if (this.map)] block *)
      param' ← (if m is Some _ then
                  let p := default ∅ param in
                  let p := <["type" := VStr eventType]> p in
                  let p := <["target" := VLayer This]> p in
                  Map_onLayerEvent subs m p;;
                  mret (Some p)
                else mret param);
      (* [arguments] still holds what the caller passed; an object passed by
         the caller is the one that was stamped *)
      Eventable_fire subs eventType (if param is Some _ then param' else None);;
      (if String.eqb eventType "show" || String.eqb eventType "hide" then
         v ← gets (fun w => visible (options (this w)));
         fire_rec subs fuel' "visiblechange"
                  (Some (<["visible" := of_nilable VBool v]> (default ∅ param')));;
         mret tt
       else mret tt);;
      mret This
  end.

(** A firing nests at most one more firing, of [visiblechange], which is
    neither [show] nor [hide]: fuel 2 is enough, and more changes nothing
    ([fire_rec_enough_fuel]).  In the methods of the layer the subscribers
    are onlookers: what a handler does to the layer in response to an event
    is not part of what the method does. *)
Definition fire : string -> option Payload -> M LayerRef := fire_rec onlookers 2.

(** [getId()] *)
Definition getId : M (Nilable string) := gets (fun w => _id (this w)).

(** [setId(id)]; [id + ''] appends the empty string to the string form *)
Definition setId (id : Nilable string) : M LayerRef :=
  old ← gets (fun w => _id (this w));
  let id := if negb (isNil id) then val (to_str id +:+ EmptyString) else id in
  modify (with_this (set_id id));;
  fire "idchange" (Some (<["new" := of_nilable VStr id]>
                         (<["old" := of_nilable VStr old]> ∅)));;
  mret This.

(** [setZIndex(zIndex)] *)
Definition setZIndex (z : Nilable Q) : M LayerRef :=
  modify (with_this (set_zIndex z));;
  (match z with
   | val q => modify (with_this (with_options (set_opt_zIndex (Some q))))
   | _ => modify (with_this (with_options (set_opt_zIndex None)))
   end);;
  m ← gets (fun w => map (this w));
  when (bool_decide (is_Some m)) (Map_sortLayersByZIndex m);;
  r ← gets (fun w => _renderer (this w));
  when (bool_decide (is_Some r)) (Renderer_call r (RendererSetZIndex z));;
  fire "setzindex" (Some (<["zIndex" := of_nilable VNum z]> ∅));;
  mret This.

(** [getZIndex()] *)
Definition getZIndex : M Q := gets (fun w => zIndex_of w This).

(** [getMinZoom()] *)
Definition getMinZoom : M (Nilable Q) :=
  m ← getMap;
  minZoom ← gets (fun w => minZoom (options (this w)));
  if m is Some _ then
    mapMin ← Map_get m map_minZoom;
    mret (val (Math_max mapMin (or_zero minZoom)))
  else mret minZoom.

(** [getMaxZoom()] *)
Definition getMaxZoom : M (Nilable Q) :=
  m ← getMap;
  maxZoom ← gets (fun w => maxZoom (options (this w)));
  if m is Some _ then
    mapMax ← Map_get m map_maxZoom;
    mret (val (Math_min mapMax
                 (match maxZoom with val q => Fin q | _ => Infinity end)))
  else mret maxZoom.

(** [getOpacity()] *)
Definition getOpacity : M (Nilable Q) := gets (fun w => opacity (options (this w))).

(** [_getRenderer()] and [getRenderer()] *)
Definition _getRenderer : M (option Renderer) := gets (fun w => _renderer (this w)).
Definition getRenderer : M (option Renderer) := _getRenderer.

(** [isCanvasRender()], as a condition *)
Definition isCanvasRender : M bool :=
  r ← _getRenderer;
  mret (if r is Some r' then isCanvasRenderer (clazz r') else false).

(** [_getLayerList()] *)
Definition _getLayerList : M (list LayerRef) :=
  m ← gets (fun w => map (this w));
  if m is Some _ then Map_get m _layers else mret [].

(** [getProjection()] *)
Definition getProjection : M (option string) :=
  m ← getMap;
  if m is Some _ then p ← Map_get m map_projection; mret (Some p) else mret None.

(** [bringToFront()] *)
Definition bringToFront : M LayerRef :=
  layers ← _getLayerList;
  if Nat.eqb (length layers) 0 then mret This
  else
    match layers !! (length layers - 1)%nat with
    | None => throw TypeError             (* [topLayer] would be undefined *)
    | Some topLayer =>
        if Nat.eqb (length layers) 1 || is_this topLayer then mret This
        else
          max ← gets (fun w => zIndex_of w topLayer);
          setZIndex (val (js_add max 1));;
          mret This
    end.

(** [bringToBack()] *)
Definition bringToBack : M LayerRef :=
  layers ← _getLayerList;
  if Nat.eqb (length layers) 0 then mret This
  else
    match layers !! 0%nat with
    | None => throw TypeError
    | Some bottomLayer =>
        if Nat.eqb (length layers) 1 || is_this bottomLayer then mret This
        else
          min ← gets (fun w => zIndex_of w bottomLayer);
          setZIndex (val (js_sub min 1));;
          mret This
    end.

(** [show()] *)
Definition show : M LayerRef :=
  v ← gets (fun w => visible (options (this w)));
  when (negb (truthy v))
    (modify (with_this (with_options (set_opt_visible (val true))));;
     renderer ← getRenderer;
     when (bool_decide (is_Some renderer)) (Renderer_call renderer RendererShow);;
     m ← getMap;
     if bool_decide (is_Some renderer) && bool_decide (is_Some m) then
       Map_once m "renderend" (CbFire "show")
     else
       fire "show" None;; mret tt);;
  mret This.

(** [hide()] *)
Definition hide : M LayerRef :=
  v ← gets (fun w => visible (options (this w)));
  when (truthy v)
    (modify (with_this (with_options (set_opt_visible (val false))));;
     renderer ← getRenderer;
     when (bool_decide (is_Some renderer)) (Renderer_call renderer RendererHide);;
     m ← getMap;
     if bool_decide (is_Some renderer) && bool_decide (is_Some m) then
       Map_once m "renderend" (CbFire "hide")
     else
       fire "hide" None;; mret tt);;
  mret This.

(** Modelled from the spec: the firing of an event on the viewport
    (Eventable.js of the map), as far as one-shot subscriptions go: each
    subscription to the event is removed and then runs once, in the order of
    registration. *)
Definition run_callback (cb : Callback) : M unit :=
  match cb with
  | CbFire eventType => fire eventType None;; mret tt
  end.

Definition Map_fire (event : string) : M unit :=
  cbs ← gets (fun w => once_listeners (the_map w));
  modify (with_the_map (set_once_listeners
            (filter (fun ec => negb (String.eqb (fst ec) event)) cbs)));;
  forEach (filter (fun ec => String.eqb (fst ec) event) cbs)
          (fun ec => run_callback (snd ec)).

(** [isVisible()] *)
Definition isVisible : M (Nilable bool) :=
  o ← gets (fun w => options (this w));
  if isNumber (opacity o) && js_le (opacity o) 0 then mret (val false)
  else
    m ← getMap;
    out_of_range ←
      (if m is Some _ then
         zoom ← Map_get m map_zoom;
         mret ((negb (isNil (maxZoom o)) && js_lt (maxZoom o) zoom)
               || (negb (isNil (minZoom o)) && js_gt (minZoom o) zoom))
       else mret false);
    if (out_of_range : bool) then mret (val false)
    else
      when (isNil (visible o))
           (modify (with_this (with_options (set_opt_visible (val true)))));;
      gets (fun w => visible (options (this w))).

(** [getMask()] *)
Definition getMask : M (option Geometry) := gets (fun w => _mask (this w)).

(** The redraw request that ends [setMask] and [removeMask]. *)
Definition redraw_unless_zooming : M LayerRef :=
  m ← getMap;
  stop ← (if m is Some _ then Map_get m map_zooming else mret true);
  if (stop : bool) then mret This
  else
    renderer ← _getRenderer;
    when (if renderer is Some r then has_setToRedraw (clazz r) else false)
         (r ← _getRenderer;
          Renderer_call_optional r has_setToRedraw RendererSetToRedraw);;
    mret This.

Definition point_mask_symbol : Symbol :=
  <["markerLineColor" := VStr "rgba(0, 0, 0, 0)"]>
    (<["markerFillOpacity" := VNum 0]> ∅).

Definition polygon_mask_symbol : Symbol :=
  <["lineColor" := VStr "rgba(0, 0, 0, 0)"]>
    (<["polygonOpacity" := VNum 0]> ∅).

Definition mask_accepted (mask : Geometry) : bool :=
  (String.eqb (type mask) "Point" && _isVectorMarker mask)
  || String.eqb (type mask) "Polygon"
  || String.eqb (type mask) "MultiPolygon".

Definition InvalidMaskError : Exn :=
  Error "Mask for a layer must be a marker with vector marker symbol or a Polygon(MultiPolygon).".

(** [setMask(mask)] *)
Definition setMask (mask : Geometry) : M LayerRef :=
  if negb (mask_accepted mask) then throw InvalidMaskError
  else
    emit MaskBindLayer;;
    let mask := Geometry_bindLayer This mask in
    mask ← (if String.eqb (type mask) "Point" then
              emit (MaskUpdateSymbol point_mask_symbol);;
              mret (Geometry_updateSymbol point_mask_symbol mask)
            else
              emit (MaskSetSymbol polygon_mask_symbol);;
              mret (Geometry_setSymbol polygon_mask_symbol mask));
    modify (with_this (set_mask (Some mask)));;
    modify (with_this (with_options (set_opt_mask (Some (Geometry_toJSON mask)))));;
    redraw_unless_zooming.

(** [removeMask()] *)
Definition removeMask : M LayerRef :=
  modify (with_this (set_mask None));;
  modify (with_this (with_options (set_opt_mask None)));;
  redraw_unless_zooming.

(** [isLoaded()] *)
Definition isLoaded : M bool := gets (fun w => _loaded (this w)).

Definition scope_is_layer (w : World) : bool :=
  match collisionScope (options (this w)) with
  | val s => String.eqb s "layer"
  | _ => false
  end.

(** [getCollisionIndex()] *)
Definition getCollisionIndex : M (option nat) :=
  layer_scope ← gets scope_is_layer;
  if (layer_scope : bool) then
    ci ← gets (fun w => _collisionIndex (this w));
    when (negb (bool_decide (is_Some ci)))
         (r ← CollisionIndex_new;
          modify (with_this (set_collisionIndex (Some r))));;
    gets (fun w => _collisionIndex (this w))
  else
    m ← getMap;
    if m is Some _ then r ← Map_get m map_collisionIndex; mret (Some r)
    else mret None.

(** [clearCollisionIndex()] *)
Definition clearCollisionIndex : M LayerRef :=
  layer_scope ← gets scope_is_layer;
  ci ← gets (fun w => _collisionIndex (this w));
  when (layer_scope && bool_decide (is_Some ci)) (CollisionIndex_clear ci);;
  mret This.

(** [onConfig(conf)] *)
Definition onConfig (conf : option (gmap string Value)) : M unit :=
  match conf with
  | None => mret tt
  | Some c =>
      let needUpdate := negb (Nat.eqb (size c) 0) in
      let animation_nil :=
        match c !! "animation" with
        | None | Some VUndefined | Some VNull => true
        | _ => false
        end in
      if needUpdate && animation_nil then
        cls ← gets (fun w => constructor (this w));
        when (_optionsHook cls) (emit (HookOptions c));;
        if _silentConfig cls then mret tt
        else
          renderer ← getRenderer;
          when (if renderer is Some r then has_setToRedraw (clazz r) else false)
               (Renderer_call_optional renderer has_setToRedraw RendererSetToRedraw)
      else mret tt
  end.

(** Modelled from the spec: [config(key, value)] of Class.js, for the
    opacity: the option is stored and the options-change hook [onConfig] runs
    on the change. *)
Definition config_opacity (op : Nilable Q) : M unit :=
  modify (with_this (with_options (set_opt_opacity op)));;
  onConfig (Some (<["opacity" := of_nilable VNum op]> ∅)).

(** [setOpacity(op)] *)
Definition setOpacity (op : Nilable Q) : M LayerRef :=
  config_opacity op;;
  fire "setopacity" (Some (<["opacity" := of_nilable VNum op]> ∅));;
  mret This.

(** [_switchEvents(to, emitter)], the emitter being the layer or its
    renderer *)
Definition _switchEvents (to : string) (emitter : Emitter) : M unit :=
  events ← gets (fun w =>
    match emitter with
    | EmLayer => getEvents (constructor (this w))
    | EmRenderer => r ← _renderer (this w); renderer_getEvents (clazz r)
    end);
  m ← getMap;
  match events, m with
  | Some evs, Some _ => Map_switch m to evs emitter
  | _, _ => mret tt
  end.

(** [_bindMap(map, zIndex)] *)
Definition _bindMap (mp : option MapRef) (z : Nilable Q) : M unit :=
  if mp is Some _ then
    modify (with_this (set_map mp));;
    when (negb (isNil z)) (setZIndex z;; mret tt);;
    _switchEvents "on" EmLayer;;
    emit HookOnAdd;;
    fire "add" None;;
    mret tt
  else mret tt.

(** [_initRenderer()] *)
Definition _initRenderer : M unit :=
  renderer ← gets (fun w => renderer (options (this w)));
  registry ← gets (fun w => getRendererClass (constructor (this w)));
  match registry with
  | None => mret tt
  | Some lookup =>
      match lookup renderer with
      | None =>
          id ← getId;
          throw (Error ("Invalid renderer for Layer(" +:+ to_str id +:+ "):" +:+ renderer))
      | Some cls =>
          (* [new clazz(this)], then [this._renderer.layer = this] *)
          modify (with_this (set_renderer (Some (mkRenderer cls None))));;
          modify (with_this (set_renderer (Some (mkRenderer cls (Some This)))));;
          z ← getZIndex;
          r ← gets (fun w => _renderer (this w));
          Renderer_call r (RendererSetZIndex (val z));;
          _switchEvents "on" EmRenderer;;
          r ← gets (fun w => _renderer (this w));
          when (if r is Some r' then has_onAdd (clazz r') else false)
               (Renderer_call_optional r has_onAdd RendererOnAdd);;
          emit HookOnRendererCreate;;
          r ← gets (fun w => _renderer (this w));
          fire "renderercreate"
               (Some (<["renderer" := if r is Some r' then VRenderer r' else VUndefined]> ∅));;
          mret tt
      end
  end.

(** [load()] *)
Definition load : M LayerRef :=
  m ← getMap;
  if m is Some _ then
    emit HookOnLoad;;
    continue ← gets (fun w => onLoad (constructor (this w)));
    when continue
      (_initRenderer;;
       zIndex ← getZIndex;
       when (negb (isNil (val zIndex)))
         (r ← gets (fun w => _renderer (this w));
          Renderer_call r (RendererSetZIndex (val zIndex));;
          canvas ← isCanvasRender;
          when (negb canvas)
            (r ← gets (fun w => _renderer (this w));
             Renderer_call r RendererRender));;
       emit HookOnLoadEnd);;
    mret This
  else mret This.

(** [_doRemove()] *)
Definition _doRemove : M unit :=
  modify (with_this (set_loaded false));;
  _switchEvents "off" EmLayer;;
  emit HookOnRemove;;
  r ← gets (fun w => _renderer (this w));
  when (bool_decide (is_Some r))
    (_switchEvents "off" EmRenderer;;
     r ← gets (fun w => _renderer (this w));
     Renderer_call r RendererRemove;;
     modify (with_this (set_renderer None)));;
  modify (with_this (set_map None));;
  modify (with_this (set_collisionIndex None)).

(** Modelled from the spec: [removeLayer] of the viewport (Map.js): the
    layer leaves the collection and the viewport invokes its [_doRemove]. *)
Definition Map_removeLayer (m : option MapRef) : M unit :=
  match m with
  | None => throw TypeError
  | Some TheMap =>
      emit MapRemoveLayer;;
      modify (with_the_map (fun mp =>
        set_layers (filter (fun l => negb (is_this l)) (_layers mp)) mp));;
      _doRemove
  end.

(** [remove()] *)
Definition remove : M LayerRef :=
  m ← gets (fun w => map (this w));
  when (bool_decide (is_Some m)) (Map_removeLayer m);;
  mret This.

(** [_getMask2DExtent()] *)
Definition _getMask2DExtent : M (option Extent) :=
  mask ← gets (fun w => _mask (this w));
  m ← getMap;
  match mask, m with
  | Some g, Some _ =>
      match _maskPainter g with
      | None => mret None
      | Some extent => mret (Some extent)
      end
  | _, _ => mret None
  end.

(** The module-level [options], merged into the class by [mergeOptions]. *)
Definition default_options : Options :=
  mkOptions null null (val true) (val 1%Q) "canvas" (val "layer") None None.

(** Modelled from the spec: the [super(options)] call of the constructor
    (Class.js): a layer that is detached, unloaded, without id, renderer,
    mask or collision index, whose options are the given ones, or the
    defaults when none are given. *)
Definition Class_new (cls : LayerClass) (opts : option Options) : Layer :=
  mkLayer cls undefined undefined (default default_options opts) None None None
          None false.

(** [constructor(id, options)].  The [canvas] option, which the constructor
    moves to [_canvas] and no method of this file reads, is left out. *)
Definition new_Layer (cls : LayerClass) (id : Nilable string)
    (opts : option Options) : M LayerRef :=
  modify (with_this (fun _ => Class_new cls opts));;
  setId id;;
  (if opts is Some o then
     setZIndex (if zIndex o is Some q then val q else undefined);;
     (if mask o is Some j then setMask (Geometry_fromJSON j);; mret tt
      else mret tt)
   else mret tt);;
  emit ProxyOptions;;
  mret This.

(** * Vocabulary of the statements *)

(** ** Events *)

(** The stamping of a payload with its [type] and [target]. *)
Definition stamp (eventType : string) (p : Payload) : Payload :=
  <["target" := VLayer This]> (<["type" := VStr eventType]> p).

Definition attached (w : World) : bool := bool_decide (is_Some (map (this w))).

Definition is_show_or_hide (eventType : string) : bool :=
  String.eqb eventType "show" || String.eqb eventType "hide".

(** What one firing sends to the aggregator and to the local subscribers. *)
Definition mirrored (w : World) (eventType : string) (param : option Payload)
    : list Effect :=
  if attached w then [MapOnLayerEvent (stamp eventType (default ∅ param))] else [].

Definition dispatched (w : World) (eventType : string) (param : option Payload)
    : list Effect :=
  [Dispatch eventType (if attached w then stamp eventType <$> param else param)].

(** The payload of the derived [visiblechange]: the payload of the primitive
    event as it stands after the mirroring, merged with the visible option. *)
Definition visiblechange_payload (w : World) (eventType : string)
    (param : option Payload) : Payload :=
  <["visible" := of_nilable VBool (visible (options (this w)))]>
    (if attached w then stamp eventType (default ∅ param) else default ∅ param).

Definition fired (w : World) (eventType : string) (param : option Payload)
    : list Effect :=
  mirrored w eventType param ++ dispatched w eventType param
  ++ (if is_show_or_hide eventType then
        let vc := Some (visiblechange_payload w eventType param) in
        mirrored w "visiblechange" vc ++ dispatched w "visiblechange" vc
      else []).

Definition after_fire (w : World) (eventType : string) (param : option Payload)
    : World :=
  with_log (fun l => l ++ fired w eventType param)
    (if String.eqb eventType "layerload" then with_this (set_loaded true) w else w).

(** Subscribers that return and change nothing when they are called on a
    layer whose loaded flag is [b] (on any other layer they may do
    anything). *)
Definition quiet_when_loaded_is (b : bool) (subs : Subscribers) : Prop :=
  (∀ (p : Payload) (w : World),
     _loaded (this w) = b → on_layer_event subs p w = Ok tt w)
  ∧ (∀ (eventType : string) (p : option Payload) (w : World),
       _loaded (this w) = b → on_dispatch subs eventType p w = Ok tt w).

(** A subscriber that throws unless [isLoaded()] is true when it is
    called. *)
Definition expects_loaded : M unit :=
  b ← gets (fun w => _loaded (this w));
  if (b : bool) then mret tt else throw (Error "not loaded").

Definition loaded_probe : Subscribers :=
  mkSubscribers (fun _ => expects_loaded) (fun _ _ => expects_loaded).

Definition idchange_payload (old new : Nilable string) : Payload :=
  <["new" := of_nilable VStr new]> (<["old" := of_nilable VStr old]> ∅).

(** The world a computation ends in, returned or thrown. *)
Definition final_world {A : Type} (r : Result A) : option World :=
  match r with
  | Ok _ w => Some w
  | Throw _ w => Some w
  | OutOfFuel => None
  end.

(** Every computation of this file only appends to the log. *)
Definition extends_log {A : Type} (m : M A) : Prop :=
  ∀ w : World, ∃ (w' : World) (rest : list Effect),
    final_world (m w) = Some w' ∧ log w' = log w ++ rest.

(** What [setId(id)] does: the id is stored as given and [idchange] is fired,
    mirrored to the map when attached, with the old and the new value. *)
Definition setId_stores_and_fires (id : Nilable string) : Prop :=
  ∀ w : World, ∃ w' : World,
    let p := idchange_payload (_id (this w)) id in
    setId id w = Ok This w'
    ∧ _id (this w') = id
    ∧ p !! "old" = Some (of_nilable VStr (_id (this w)))
    ∧ p !! "new" = Some (of_nilable VStr id)
    ∧ log w' =
        log w
        ++ (if attached w then [MapOnLayerEvent (stamp "idchange" p)] else [])
        ++ [Dispatch "idchange" (Some (if attached w then stamp "idchange" p else p))].

Definition has_renderer (w : World) : bool :=
  bool_decide (is_Some (_renderer (this w))).

Definition set_visible (b : bool) (w : World) : World :=
  with_this (with_options (set_opt_visible (val b))) w.

(** A call to the renderer, when there is one. *)
Definition tell_renderer (e : Effect) (w : World) : World :=
  if has_renderer w then with_log (fun l => l ++ [e]) w else w.

(** The registration of a one-shot callback on an event of the map. *)
Definition defer (event : string) (cb : Callback) (w : World) : World :=
  with_the_map (fun mp => set_once_listeners (once_listeners mp ++ [(event, cb)]) mp) w.

(** The zoom lies in [[minZoom, maxZoom]], a nil bound being no limit. *)
Definition zoom_in_range (o : Options) (zoom : Q) : Prop :=
  (∀ mx : Q, maxZoom o = val mx → (zoom <= mx)%Q)
  ∧ (∀ mn : Q, minZoom o = val mn → (mn <= zoom)%Q).

(** The clamping with a nil bound of the layer taken as no bound at all,
    for the lower and for the upper bound. *)
Definition clamps_with_nil_unbounded (w : World) : Prop :=
  ∃ lo hi : Q,
    getMinZoom w = Ok (val lo) w
    ∧ getMaxZoom w = Ok (val hi) w
    ∧ (lo == match minZoom (options (this w)) with
             | val q => Qmax (map_minZoom (the_map w)) q
             | _ => map_minZoom (the_map w)
             end)%Q
    ∧ (hi == match maxZoom (options (this w)) with
             | val q => Qmin (map_maxZoom (the_map w)) q
             | _ => map_maxZoom (the_map w)
             end)%Q
    ∧ (map_minZoom (the_map w) <= lo)%Q
    ∧ (hi <= map_maxZoom (the_map w))%Q.

Definition own_index (w : World) : option nat := _collisionIndex (this w).
Definition shared_index (w : World) : nat := map_collisionIndex (the_map w).

(** The world after [new CollisionIndex()] has been stored in the layer. *)
Definition with_new_index (w : World) : World :=
  with_this (set_collisionIndex (Some (next_index w)))
    (set_indexes (<[next_index w := []]> (indexes w)) (S (next_index w)) w).

Definition with_index_cleared (r : nat) (w : World) : World :=
  set_indexes (<[r := []]> (indexes w)) (next_index w) w.

(** The kinds a mask may have: a point with vector-marker styling, a
    polygon, a multi-polygon. *)
Definition accepted_kind (mask : Geometry) : Prop :=
  (type mask = "Point" ∧ _isVectorMarker mask = true)
  ∨ type mask = "Polygon"
  ∨ type mask = "MultiPolygon".

Definition can_redraw (w : World) : bool :=
  attached w && negb (map_zooming (the_map w))
  && (if _renderer (this w) is Some r then has_setToRedraw (clazz r) else false).

(** The mask as [setMask] leaves it: bound to the layer and restyled. *)
Definition restyled (mask : Geometry) : Geometry :=
  if String.eqb (type mask) "Point"
  then Geometry_updateSymbol point_mask_symbol (Geometry_bindLayer This mask)
  else Geometry_setSymbol polygon_mask_symbol (Geometry_bindLayer This mask).

Definition restyle_calls (mask : Geometry) : list Effect :=
  [MaskBindLayer;
   if String.eqb (type mask) "Point"
   then MaskUpdateSymbol point_mask_symbol
   else MaskSetSymbol polygon_mask_symbol].

Definition with_mask_stored (mask : Geometry) (w : World) : World :=
  with_this (with_options (set_opt_mask (Some (Geometry_toJSON (restyled mask)))))
    (with_this (set_mask (Some (restyled mask)))
       (with_log (fun l => l ++ restyle_calls mask) w)).

Definition UnknownRendererError (id : Nilable string) (kind : string) : Exn :=
  Error ("Invalid renderer for Layer(" +:+ to_str id +:+ "):" +:+ kind).

(** The calls [_initRenderer] makes once the renderer object exists, up to
    the [renderercreate] event. *)
Definition creation_calls (cls : RendererClass) (w : World) : list Effect :=
  [RendererSetZIndex (val (zIndex_of w This))]
  ++ (match renderer_getEvents cls, map (this w) with
      | Some evs, Some _ => [MapSwitch "on" evs EmRenderer]
      | _, _ => []
      end)
  ++ (if has_onAdd cls then [RendererOnAdd] else [])
  ++ [HookOnRendererCreate].

Definition renderercreate_payload (cls : RendererClass) : Payload :=
  <["renderer" := VRenderer (mkRenderer cls (Some This))]> ∅.

Definition with_renderer_created (cls : RendererClass) (w : World) : World :=
  after_fire
    (with_log (fun l => l ++ creation_calls cls w)
       (with_this (set_renderer (Some (mkRenderer cls (Some This)))) w))
    "renderercreate" (Some (renderercreate_payload cls)).

(** The end of a successful [load()]: the z-index goes to the renderer, a
    renderer that is not a canvas renderer is told to render, and
    [onLoadEnd()] runs. *)
Definition load_tail (w : World) : list Effect :=
  [RendererSetZIndex (val (zIndex_of w This))]
  ++ (if (if _renderer (this w) is Some r then isCanvasRenderer (clazz r) else false)
      then [] else [RendererRender])
  ++ [HookOnLoadEnd].

Definition with_zIndex (z : Nilable Q) (w : World) : World :=
  with_this (with_options (set_opt_zIndex (if z is val q then Some q else None)))
    (with_this (set_zIndex z) w).

(** The re-sort of the map's layers, when the layer is attached. *)
Definition resorted (w : World) : World :=
  if attached w then
    with_log (fun l => l ++ [MapSortLayersByZIndex])
      (with_the_map (fun mp => set_layers (sort_by (zIndex_of w) (_layers mp)) mp) w)
  else w.

Definition zindex_payload (z : Nilable Q) : Payload :=
  <["zIndex" := of_nilable VNum z]> ∅.

(** [_getLayerList()] as a function of the world. *)
Definition layer_list (w : World) : list LayerRef :=
  if attached w then _layers (the_map w) else [].

(** The list is ordered by z-index, lowest first. *)
Definition z_ordered (key : LayerRef → Q) (l : list LayerRef) : Prop :=
  StronglySorted (fun a b => (key a <= key b)%Q) l.

(** The computation returns, in every world. *)
Definition returns {A : Type} (m : M A) : Prop :=
  ∀ w : World, ∃ (a : A) (w' : World), m w = Ok a w'.

(** The operations of a layer. *)
Inductive Op : Type :=
| OpLoad
| OpGetId
| OpSetId (id : Nilable string)
| OpSetZIndex (z : Nilable Q)
| OpGetZIndex
| OpGetMinZoom
| OpGetMaxZoom
| OpGetOpacity
| OpSetOpacity (op : Nilable Q)
| OpIsCanvasRender
| OpGetMap
| OpGetProjection
| OpBringToFront
| OpBringToBack
| OpShow
| OpHide
| OpIsVisible
| OpRemove
| OpGetMask
| OpSetMask (g : Geometry)
| OpRemoveMask
| OpIsLoaded
| OpGetCollisionIndex
| OpClearCollisionIndex
| OpGetRenderer
| OpOnConfig (conf : option (gmap string Value))
| OpFire (eventType : string) (param : option Payload)
| OpBindMap (mp : option MapRef) (z : Nilable Q)
| OpDoRemove
| OpSwitchEvents (to : string) (emitter : Emitter)
| OpGetLayerList
| OpGetMask2DExtent.

Definition run_op (op : Op) : M unit :=
  match op with
  | OpLoad => load;; mret tt
  | OpGetId => getId;; mret tt
  | OpSetId id => setId id;; mret tt
  | OpSetZIndex z => setZIndex z;; mret tt
  | OpGetZIndex => getZIndex;; mret tt
  | OpGetMinZoom => getMinZoom;; mret tt
  | OpGetMaxZoom => getMaxZoom;; mret tt
  | OpGetOpacity => getOpacity;; mret tt
  | OpSetOpacity op => setOpacity op;; mret tt
  | OpIsCanvasRender => isCanvasRender;; mret tt
  | OpGetMap => getMap;; mret tt
  | OpGetProjection => getProjection;; mret tt
  | OpBringToFront => bringToFront;; mret tt
  | OpBringToBack => bringToBack;; mret tt
  | OpShow => show;; mret tt
  | OpHide => hide;; mret tt
  | OpIsVisible => isVisible;; mret tt
  | OpRemove => remove;; mret tt
  | OpGetMask => getMask;; mret tt
  | OpSetMask g => setMask g;; mret tt
  | OpRemoveMask => removeMask;; mret tt
  | OpIsLoaded => isLoaded;; mret tt
  | OpGetCollisionIndex => getCollisionIndex;; mret tt
  | OpClearCollisionIndex => clearCollisionIndex;; mret tt
  | OpGetRenderer => getRenderer;; mret tt
  | OpOnConfig conf => onConfig conf
  | OpFire eventType param => fire eventType param;; mret tt
  | OpBindMap mp z => _bindMap mp z
  | OpDoRemove => _doRemove
  | OpSwitchEvents to emitter => _switchEvents to emitter
  | OpGetLayerList => _getLayerList;; mret tt
  | OpGetMask2DExtent => _getMask2DExtent;; mret tt
  end.

(** The operations that are to be harmless in every state: all but
    [setMask], and [load] on a detached layer only. *)
Definition defensive (op : Op) (w : World) : Prop :=
  match op with
  | OpSetMask _ => False
  | OpLoad => map (this w) = None
  | _ => True
  end.

(** What the collision-index operations read and write. *)
Definition index_view (w : World)
    : option nat * bool * nat * gmap nat (list nat) * nat :=
  (own_index w, scope_is_layer w, shared_index w, indexes w, next_index w).

(** The computation leaves the collision indexes alone, however it ends. *)
Definition keeps_indexes {A : Type} (m : M A) : Prop :=
  ∀ w w' : World, final_world (m w) = Some w' → index_view w' = index_view w.



(** ** Concrete worlds *)

Definition canvas_renderer : RendererClass :=
  mkRendererClass true true true (Some ["resize"]).

Definition dom_renderer : RendererClass := mkRendererClass false false false None.

Definition renderers (kind : string) : option RendererClass :=
  if String.eqb kind "canvas" then Some canvas_renderer
  else if String.eqb kind "dom" then Some dom_renderer
  else None.

Definition sample_class : LayerClass :=
  mkLayerClass (Some renderers) true None false false.

Definition reluctant_class : LayerClass :=
  mkLayerClass (Some renderers) false None false false.

Definition sample_map : Map :=
  mkMap [This; Other (mkSibling 1 (val 3%Q))] 5 0 20 false 0 "EPSG:3857" [].

(** A layer fresh from its constructor's [super] call, next to a map. *)
Definition detached_world : World :=
  mkWorld (Class_new sample_class None) sample_map (<[0%nat := []]> ∅) 1 [].

Definition attached_world : World := with_this (set_map (Some TheMap)) detached_world.

Definition world_with_options (o : Options) (attach : bool) : World :=
  mkWorld (mkLayer sample_class (val "roads") undefined o
             (if attach then Some TheMap else None) None None None false)
          sample_map (<[0%nat := []]> ∅) 1 [].

Definition transparent_world : World :=
  world_with_options
    (mkOptions null null (val true) (val 0%Q) "canvas" (val "layer") None None) true.

Definition zoomed_out_world : World :=
  world_with_options
    (mkOptions null (val 3%Q) (val true) (val 1%Q) "canvas" (val "layer") None None) true.

Definition unset_visible_world : World :=
  world_with_options
    (mkOptions null null undefined (val 1%Q) "canvas" (val "layer") None None) false.

Definition webgl_world : World :=
  world_with_options
    (mkOptions null null (val true) (val 1%Q) "webgl" (val "layer") None None) true.

Definition dom_world : World :=
  world_with_options
    (mkOptions null null (val true) (val 1%Q) "dom" (val "layer") None None) true.


Definition reluctant_world : World :=
  mkWorld (mkLayer reluctant_class (val "roads") undefined default_options
             (Some TheMap) None None None false)
          sample_map (<[0%nat := []]> ∅) 1 [].

(** A layer on a map whose class has no renderer registry. *)
Definition bare_class : LayerClass := mkLayerClass None true None false false.

Definition bare_world : World :=
  mkWorld (mkLayer bare_class (val "roads") undefined default_options
             (Some TheMap) None None None false)
          sample_map (<[0%nat := []]> ∅) 1 [].

(** A map whose minimum zoom is negative, and a layer without bounds. *)
Definition negative_map_world : World :=
  mkWorld (mkLayer sample_class (val "roads") undefined default_options
             (Some TheMap) None None None false)
          (mkMap [This] 5 (-1) 20 false 0 "EPSG:3857" [])
          (<[0%nat := []]> ∅) 1 [].


(** An attached layer that has been loaded: it has a canvas renderer. *)
Definition rendered_world : World :=
  mkWorld (mkLayer sample_class (val "roads") undefined default_options
             (Some TheMap) (Some (mkRenderer canvas_renderer (Some This)))
             None None true)
          sample_map (<[0%nat := []]> ∅) 1 [].

(** The [visiblechange] that accompanies a deferred event, as the map's
    aggregator receives it. *)
Definition deferred_visiblechange (eventType : string) (v : bool) : Payload :=
  stamp "visiblechange" (<["visible" := VBool v]> (stamp eventType ∅)).

Definition line_mask : Geometry := mkGeometry "LineString" false ∅ None None.
Definition polygon_mask : Geometry :=
  mkGeometry "Polygon" false (<["polygonFill" := VStr "#f00"]> ∅) None None.



(** ** Vocabulary of the further properties *)

(** The opacity lets the layer show: it is not a number that is at most 0. *)
Definition opaque_enough (o : Options) : Prop :=
  ∀ q : Q, opacity o = val q → (0 < q)%Q.

(** The events of an emitter, when it declares some. *)
Definition events_of (em : Emitter) (w : World) : option (list string) :=
  match em with
  | EmLayer => getEvents (constructor (this w))
  | EmRenderer => r ← _renderer (this w); renderer_getEvents (clazz r)
  end.

(** The call [_switchEvents] makes to the map. *)
Definition switch_calls (to : string) (em : Emitter) (w : World) : list Effect :=
  match events_of em w, map (this w) with
  | Some evs, Some _ => [MapSwitch to evs em]
  | _, _ => []
  end.

(** The calls of [_doRemove()], in order. *)
Definition removal_calls (w : World) : list Effect :=
  switch_calls "off" EmLayer w ++ [HookOnRemove]
  ++ (if has_renderer w
      then switch_calls "off" EmRenderer w ++ [RendererRemove] else []).

(** The layer as [_doRemove()] leaves it. *)
Definition removed (l : Layer) : Layer :=
  mkLayer (constructor l) (_id l) (_zIndex l) (options l) None None (_mask l)
          None false.

(** The world after the first steps of [_bindMap(map, zIndex)]: the
    back-reference set, and the z-index if one is given. *)
Definition bound (z : Nilable Q) (w : World) : World :=
  if isNil z then with_this (set_map (Some TheMap)) w
  else after_fire
         (tell_renderer (RendererSetZIndex z)
            (resorted (with_zIndex z (with_this (set_map (Some TheMap)) w))))
         "setzindex" (Some (zindex_payload z)).

(** The mask that the constructor's options carry, if any. *)
Definition constructor_mask (opts : option Options) : option Geometry :=
  o ← opts; j ← mask o; Some (Geometry_fromJSON j).

Definition constructor_zIndex (opts : option Options) : Nilable Q :=
  match opts with
  | Some o => if zIndex o is Some q then val q else undefined
  | None => undefined
  end.

(** The world after [super(options)] and [setId(id)]. *)
Definition named (cls : LayerClass) (id : Nilable string) (opts : option Options)
    (w : World) : World :=
  after_fire (with_this (set_id id) (with_this (fun _ => Class_new cls opts) w))
    "idchange" (Some (idchange_payload undefined id)).

(** The world after the constructor's [setZIndex(options.zIndex)], which
    runs when options are given. *)
Definition configured (cls : LayerClass) (id : Nilable string)
    (opts : option Options) (w : World) : World :=
  match opts with
  | None => named cls id opts w
  | Some _ =>
      let z := constructor_zIndex opts in
      after_fire
        (tell_renderer (RendererSetZIndex z)
           (resorted (with_zIndex z (named cls id opts w))))
        "setzindex" (Some (zindex_payload z))
  end.

(** The calls that go to the map. *)
Definition map_call (e : Effect) : bool :=
  match e with
  | MapOnLayerEvent _ | MapSortLayersByZIndex | MapSwitch _ _ _ | MapRemoveLayer => true
  | _ => false
  end.

(** From [w] to [w'] the layer has stayed detached, the map is as it was
    and has not been called, and no renderer has appeared. *)
Definition off_the_map (w w' : World) : Prop :=
  map (this w') = None
  ∧ the_map w' = the_map w
  ∧ (_renderer (this w) = None → _renderer (this w') = None)
  ∧ ∃ rest : list Effect,
      log w' = log w ++ rest ∧ Forall (fun e => map_call e = false) rest.

(** Started on a detached layer, the computation ends, by a return or a
    throw, in a world that is [off_the_map] from the start. *)
Definition stays_off {A : Type} (m : M A) : Prop :=
  ∀ w : World,
    map (this w) = None →
    match m w with
    | Ok _ w' | Throw _ w' => off_the_map w w'
    | OutOfFuel => False
    end.

(** The operations that attach the layer. *)
Definition attaches (op : Op) : bool :=
  match op with
  | OpBindMap (Some _) _ => true
  | _ => false
  end.

(** [I] holds at the end of the computation, returned or thrown, when it
    held at the start; and the computation ends. *)
Definition invariant (I : World -> Prop) {A : Type} (m : M A) : Prop :=
  ∀ w : World,
    I w →
    match m w with
    | Ok _ w' | Throw _ w' => I w'
    | OutOfFuel => False
    end.

(** A renderer exists only on a layer that is on a map. *)
Definition renderer_on_a_map (w : World) : Prop :=
  is_Some (_renderer (this w)) → is_Some (map (this w)).

Definition on_a_map (w : World) : Prop := is_Some (map (this w)).

Definition not_loaded (w : World) : Prop := _loaded (this w) = false.

(** The firing of [layerload]. *)
Definition fires_layerload (op : Op) : bool :=
  match op with
  | OpFire eventType _ => String.eqb eventType "layerload"
  | _ => false
  end.

(** The getters that only read, in every state; and the methods that give
    up at once on a layer that is on no map. *)
Definition idle (op : Op) (w : World) : Prop :=
  match op with
  | OpGetId | OpGetZIndex | OpGetMinZoom | OpGetMaxZoom | OpGetOpacity
  | OpIsCanvasRender | OpGetMap | OpGetProjection | OpGetMask | OpIsLoaded
  | OpGetRenderer | OpGetLayerList | OpGetMask2DExtent => True
  | OpLoad | OpRemove | OpBringToFront | OpBringToBack | OpSwitchEvents _ _ =>
      map (this w) = None
  | OpBindMap mp _ => mp = None
  | OpOnConfig conf => conf = None
  | _ => False
  end.

(** A layer on top of its sibling. *)
Definition top_world : World :=
  mkWorld (mkLayer sample_class (val "roads") (val 5%Q) default_options
             (Some TheMap) None None None false)
          (mkMap [Other (mkSibling 1 (val 3%Q)); This] 5 0 20 false 0 "EPSG:3857" [])
          (<[0%nat := []]> ∅) 1 [].

(** A layer above a sibling whose z-index is -2^53, from where on
    subtracting 1 is no longer exact. *)
Definition floor_world : World :=
  mkWorld (mkLayer sample_class (val "roads") undefined default_options
             (Some TheMap) None None None false)
          (mkMap [Other (mkSibling 1 (val (-9007199254740992)%Q)); This]
                 5 0 20 false 0 "EPSG:3857" [])
          (<[0%nat := []]> ∅) 1 [].

(** A rendered layer that owns a collision index with one box in it. *)
Definition indexed_world : World :=
  mkWorld (mkLayer sample_class (val "roads") undefined default_options
             (Some TheMap) (Some (mkRenderer canvas_renderer (Some This)))
             None (Some 1%nat) true)
          sample_map (<[1%nat := [7%nat]]> (<[0%nat := []]> ∅)) 2 [].

(** Options that carry a z-index and a mask of a refused kind. *)
Definition line_masked_options : Options :=
  mkOptions null null (val true) (val 1%Q) "canvas" (val "layer") (Some 2%Q)
            (Some (Geometry_toJSON line_mask)).

(** A layer is added to the map, loaded, shown and removed. *)
Definition life_run : list Op :=
  [OpBindMap (Some TheMap) (val 2%Q); OpLoad; OpShow; OpRemove].

(** * Properties *)

(** ** Running the monad *)

Ltac unfold_monad :=
  unfold mbind, M_bind, mret, M_ret, bind, ret, gets, modify, emit, when, throw in *.

Lemma bind_Ok {A B : Type} (m : M A) (k : A -> M B) (w w' : World) (a : A) :
  m w = Ok a w' -> (m ≫= k) w = k a w'.
Proof. intros H. unfold mbind, M_bind, bind. by rewrite H. Qed.

Lemma bind_Throw {A B : Type} (m : M A) (k : A -> M B) (w w' : World) (e : Exn) :
  m w = Throw e w' -> (m ≫= k) w = Throw e w'.
Proof. intros H. unfold mbind, M_bind, bind. by rewrite H. Qed.

Lemma append_empty_r (s : string) : s +:+ EmptyString = s.
Proof.
  induction s as [|c s IH]; [done|].
  change (String c (s +:+ EmptyString) = String c s). by rewrite IH.
Qed.

(** ** Event firing *)

Lemma fire_rec_quiet (subs : Subscribers) (n : nat) (eventType : string)
    (param : option Payload) (w : World) :
  quiet_when_loaded_is (String.eqb eventType "layerload" || _loaded (this w)) subs →
  fire_rec subs (S (S n)) eventType param w = Ok This (after_fire w eventType param).
Proof.
  intros [Hagg Hdisp].
  unfold after_fire, fired, mirrored, dispatched, visiblechange_payload,
    is_show_or_hide, attached, stamp.
  destruct w as [l mp ix nx lg].
  simpl. unfold_monad. unfold Eventable_fire, Map_onLayerEvent. unfold_monad.
  simpl in Hagg, Hdisp.
  destruct (String.eqb eventType "layerload") eqn:Hload;
  destruct (map l) as [[]|] eqn:Hmap; simpl; rewrite ?Hmap; simpl.
  all: simpl in Hagg, Hdisp.
  all: rewrite ?Hagg, ?Hdisp by reflexivity; simpl; rewrite ?Hmap; simpl.
  all: rewrite ?Hagg, ?Hdisp by reflexivity; simpl; rewrite ?Hmap; simpl.
  all: destruct (String.eqb eventType "show") eqn:Hs;
       destruct (String.eqb eventType "hide") eqn:Hh; simpl; rewrite ?Hmap; simpl.
  all: rewrite ?Hagg, ?Hdisp by reflexivity; simpl; rewrite ?Hmap; simpl.
  all: rewrite ?Hagg, ?Hdisp by reflexivity; simpl; rewrite ?Hmap; simpl.
  all: destruct param as [p|]; simpl.
  all: unfold with_log, with_this; simpl; rewrite <- ?app_assoc; simpl.
  all: try reflexivity.
Qed.

Lemma fire_rec_eq (n : nat) (eventType : string) (param : option Payload) (w : World) :
  fire_rec onlookers (S (S n)) eventType param w
  = Ok This (after_fire w eventType param).
Proof. apply fire_rec_quiet. by split. Qed.

Lemma fire_eq (eventType : string) (param : option Payload) (w : World) :
  fire eventType param w = Ok This (after_fire w eventType param).
Proof. apply (fire_rec_eq 0). Qed.

Arguments fire : simpl never.

(** The recursion of [fire] is two calls deep: any fuel from 2 on gives the
    same result. *)
Lemma fire_rec_enough_fuel (n : nat) (eventType : string) (param : option Payload)
    (w : World) :
  fire_rec onlookers (S (S n)) eventType param w = fire eventType param w.
Proof. by rewrite fire_rec_eq, fire_eq. Qed.

(** C1. Firing an event, whatever its type and payload, returns the layer
    and does, in this order: the loaded flag is set when the type is
    [layerload]; when the layer is attached the payload, stamped with [type]
    and [target], goes to the map's aggregator; then the local subscribers are
    dispatched; then, for [show] and [hide], a [visiblechange] is fired in the
    same way, its payload being the payload of the primitive event merged
    with the current visible option.  Nothing else changes.  The flag comes
    first: the subscribers of the aggregator and those of the layer are all
    called on a layer whose loaded flag has its final value already, so that
    subscribers that rely on it (for [layerload]: on [isLoaded()] being
    true), and may do anything otherwise, leave the firing as it is with
    onlookers. *)
Theorem fire_order (eventType : string) (param : option Payload) (w : World) :
  ∃ w' : World,
    fire eventType param w = Ok This w'
    ∧ _loaded (this w') = (String.eqb eventType "layerload" || _loaded (this w))
    ∧ log w' =
        log w
        ++ (if attached w
            then [MapOnLayerEvent (stamp eventType (default ∅ param))] else [])
        ++ [Dispatch eventType (if attached w then stamp eventType <$> param else param)]
        ++ (if is_show_or_hide eventType then
              let vc := visiblechange_payload w eventType param in
              (if attached w then [MapOnLayerEvent (stamp "visiblechange" vc)] else [])
              ++ [Dispatch "visiblechange"
                    (Some (if attached w then stamp "visiblechange" vc else vc))]
            else [])
    ∧ visiblechange_payload w eventType param !! "visible"
        = Some (of_nilable VBool (visible (options (this w))))
    ∧ (∀ k : string, k ≠ "visible" → k ≠ "type" → k ≠ "target" →
         visiblechange_payload w eventType param !! k = default ∅ param !! k)
    ∧ with_log (fun _ => []) (with_this (set_loaded false) w')
        = with_log (fun _ => []) (with_this (set_loaded false) w)
    ∧ (∀ subs : Subscribers,
         quiet_when_loaded_is
           (String.eqb eventType "layerload" || _loaded (this w)) subs →
         fire_rec subs 2 eventType param w = Ok This w').
Proof.
  exists (after_fire w eventType param). split; [apply fire_eq|].
  assert (Hsubs : ∀ subs : Subscribers,
            quiet_when_loaded_is
              (String.eqb eventType "layerload" || _loaded (this w)) subs →
            fire_rec subs 2 eventType param w
            = Ok This (after_fire w eventType param))
    by (intros subs; apply fire_rec_quiet).
  revert Hsubs.
  unfold after_fire, fired, mirrored, dispatched. intros Hsubs.
  repeat split; [| | | | |exact Hsubs].
  - destruct w as [l ? ? ? ?]; simpl. by destruct (String.eqb _ _).
  - destruct w as [l ? ? ? ?]; simpl.
    destruct (String.eqb eventType "layerload"); simpl; f_equal;
      destruct (attached _); simpl; try done; destruct (is_show_or_hide _); done.
  - unfold visiblechange_payload. by rewrite lookup_insert_eq.
  - intros k Hv Ht Hg. unfold visiblechange_payload, stamp.
    rewrite lookup_insert_ne by done.
    destruct (attached w); [|done].
    by rewrite !lookup_insert_ne by done.
  - destruct w as [l ? ? ? ?]; simpl.
    by destruct (String.eqb eventType "layerload"); destruct l.
Qed.

(** ** Identity *)

Lemma setId_eq (id : Nilable string) (w : World) :
  setId id w =
    Ok This (after_fire (with_this (set_id id) w) "idchange"
               (Some (idchange_payload (_id (this w)) id))).
Proof.
  unfold setId. unfold_monad. simpl.
  destruct id as [| |s]; simpl; rewrite ?append_empty_r, fire_eq; reflexivity.
Qed.

Lemma extends_log_bind {A B : Type} (m : M A) (k : A -> M B) :
  extends_log m → (∀ a, extends_log (k a)) → extends_log (m ≫= k).
Proof.
  intros Hm Hk w. destruct (Hm w) as (w1 & r1 & Hf & Hl).
  unfold mbind, M_bind, bind. destruct (m w) as [a w1'|e w1'|]; simpl in *.
  - injection Hf as ->. destruct (Hk a w1) as (w2 & r2 & Hf2 & Hl2).
    exists w2, (r1 ++ r2). split; [done|]. by rewrite Hl2, Hl, app_assoc.
  - injection Hf as ->. by exists w1, r1.
  - done.
Qed.

Lemma extends_log_ret {A : Type} (a : A) : extends_log (mret a : M A).
Proof. intros w. exists w, []. split; [done|]. by rewrite app_nil_r. Qed.

Lemma extends_log_throw {A : Type} (e : Exn) : extends_log (throw e : M A).
Proof. intros w. exists w, []. split; [done|]. by rewrite app_nil_r. Qed.

Lemma extends_log_gets {A : Type} (f : World -> A) : extends_log (gets f).
Proof. intros w. exists w, []. split; [done|]. by rewrite app_nil_r. Qed.

Lemma extends_log_modify (f : World -> World) :
  (∀ w, log (f w) = log w) → extends_log (modify f).
Proof. intros Hf w. exists (f w), []. split; [done|]. by rewrite app_nil_r, Hf. Qed.

Lemma extends_log_emit (e : Effect) : extends_log (emit e).
Proof. intros w. by exists (with_log (fun l => l ++ [e]) w), [e]. Qed.

Lemma extends_log_when (b : bool) (m : M unit) :
  extends_log m → extends_log (when b m).
Proof. intros Hm. destruct b; [done|]. apply extends_log_ret. Qed.

Lemma extends_log_fire (eventType : string) (param : option Payload) :
  extends_log (fire eventType param).
Proof.
  intros w. rewrite fire_eq. eexists _, _. split; [done|].
  unfold after_fire. by destruct (String.eqb _ _).
Qed.

Create HintDb extends_log.
#[local] Hint Resolve extends_log_ret extends_log_throw extends_log_gets
  extends_log_emit extends_log_fire : extends_log.

Ltac extends_log_step :=
  lazymatch goal with
  | |- extends_log (_ ≫= _) => apply extends_log_bind; [|intros ?]
  | |- extends_log (when _ _) => apply extends_log_when
  | |- extends_log (modify _) => apply extends_log_modify; intros [? ? ? ? ?]; reflexivity
  | |- extends_log (match ?x with _ => _ end) => destruct x
  | |- extends_log (let _ := _ in _) => cbv zeta
  | |- _ => solve [auto with extends_log]
  end.

Lemma extends_log_setZIndex (z : Nilable Q) : extends_log (setZIndex z).
Proof.
  unfold setZIndex, Map_sortLayersByZIndex, Renderer_call.
  repeat extends_log_step.
Qed.

Lemma extends_log_setMask (mask : Geometry) : extends_log (setMask mask).
Proof.
  unfold setMask, InvalidMaskError, removeMask, redraw_unless_zooming, getMap,
    _getRenderer, Map_get, Renderer_call_optional.
  repeat extends_log_step.
Qed.

Lemma setId_spec (id : Nilable string) : setId_stores_and_fires id.
Proof.
  intros w. eexists. cbv zeta. split; [apply setId_eq|].
  unfold after_fire, fired, mirrored, dispatched, idchange_payload.
  destruct w as [l ? ? ? ?]; simpl. repeat split.
  destruct (attached _); simpl; by rewrite ?app_nil_r.
Qed.

(** C10. [setId] with a nil id stores that nil value as it is and fires
    [idchange] with the old and the new value; and every construction of a
    layer, with or without an id, with or without options, has fired
    [idchange] (with an undefined old value) before anything else, also when
    the construction then fails on the mask. *)
Theorem setId_nil_and_constructor_fire_idchange :
  setId_stores_and_fires undefined
  ∧ setId_stores_and_fires null
  ∧ ∀ (cls : LayerClass) (id : Nilable string) (opts : option Options) (w : World),
      ∃ (w' : World) (rest : list Effect),
        final_world (new_Layer cls id opts w) = Some w'
        ∧ log w' =
            log w ++ Dispatch "idchange" (Some (idchange_payload undefined id)) :: rest.
Proof.
  split; [apply setId_spec|]. split; [apply setId_spec|].
  intros cls id opts w.
  assert (Hrest : extends_log
    ((if opts is Some o then
        setZIndex (if zIndex o is Some q then val q else undefined);;
        (if mask o is Some j then setMask (Geometry_fromJSON j);; mret tt
         else mret tt)
      else mret tt);; emit ProxyOptions;; (mret This : M LayerRef))).
  { pose proof extends_log_setZIndex. pose proof extends_log_setMask.
    repeat extends_log_step. }
  unfold new_Layer.
  erewrite bind_Ok by reflexivity.
  erewrite bind_Ok by apply setId_eq.
  match goal with |- context [final_world (_ ?w1)] =>
    destruct (Hrest w1) as (w' & rest & Hf & Hl) end.
  exists w', rest. split; [exact Hf|].
  rewrite Hl. destruct w as [l ? ? ? lg]; simpl.
  by rewrite <- app_assoc.
Qed.

(** ** Visibility *)

Lemma show_eq (w : World) :
  show w =
    Ok This
      (if truthy (visible (options (this w))) then w
       else
         let w1 := tell_renderer RendererShow (set_visible true w) in
         if has_renderer w && attached w
         then defer "renderend" (CbFire "show") w1
         else after_fire w1 "show" None).
Proof.
  unfold show, getRenderer, _getRenderer, getMap, Renderer_call, Map_once,
    tell_renderer, has_renderer, attached, defer, set_visible.
  unfold_monad. destruct w as [l mp ix nx lg]; simpl.
  destruct (truthy (visible (options l))); simpl; [done|].
  destruct (_renderer l) as [r|] eqn:Hr; destruct (map l) as [[]|] eqn:Hm;
    simpl; rewrite ?Hr, ?Hm; simpl; rewrite ?fire_eq; reflexivity.
Qed.

Lemma hide_eq (w : World) :
  hide w =
    Ok This
      (if truthy (visible (options (this w))) then
         let w1 := tell_renderer RendererHide (set_visible false w) in
         if has_renderer w && attached w
         then defer "renderend" (CbFire "hide") w1
         else after_fire w1 "hide" None
       else w).
Proof.
  unfold hide, getRenderer, _getRenderer, getMap, Renderer_call, Map_once,
    tell_renderer, has_renderer, attached, defer, set_visible.
  unfold_monad. destruct w as [l mp ix nx lg]; simpl.
  destruct (truthy (visible (options l))); simpl; [|done].
  destruct (_renderer l) as [r|] eqn:Hr; destruct (map l) as [[]|] eqn:Hm;
    simpl; rewrite ?Hr, ?Hm; simpl; rewrite ?fire_eq; reflexivity.
Qed.

Lemma forEach_app {A : Type} (l1 l2 : list A) (f : A -> M unit) (w : World) :
  forEach (l1 ++ l2) f w = (forEach l1 f;; forEach l2 f) w.
Proof.
  revert w. induction l1 as [|x l1 IH]; intros w; simpl; [done|].
  unfold mbind, M_bind, bind in *. destruct (f x w) as [[] w'| |]; [|done..].
  apply IH.
Qed.

Lemma forEach_singleton {A : Type} (x : A) (f : A -> M unit) (w : World) :
  forEach [x] f w = f x w.
Proof.
  simpl. unfold mbind, M_bind, bind, mret, M_ret, ret.
  by destruct (f x w) as [[] w'| |].
Qed.

(** A deferred callback runs at the next firing of the event, after the
    callbacks that were registered before it. *)
Lemma Map_fire_defer (event : string) (cb : Callback) (w : World) :
  Map_fire event (defer event cb w) = (Map_fire event;; run_callback cb) w.
Proof.
  unfold Map_fire, defer. unfold_monad. destruct w as [l mp ix nx lg]; simpl.
  rewrite !filter_app.
  rewrite (filter_cons_True (fun ec => Is_true (String.eqb (fst ec) event)))
    by (simpl; rewrite String.eqb_refl; exact I).
  rewrite (filter_cons_False (fun ec => Is_true (negb (String.eqb (fst ec) event))))
    by (simpl; rewrite String.eqb_refl; simpl; tauto).
  rewrite !filter_nil, app_nil_r, forEach_app. unfold mbind, M_bind, bind.
  destruct mp; unfold with_the_map, set_once_listeners; simpl.
  match goal with |- context [forEach ?l ?f ?w0] =>
    destruct (forEach l f w0) as [[] w'| |] end; [|done..].
  apply forEach_singleton.
Qed.

(** C2. [show()] changes nothing and fires nothing when the visible flag is
    already set; otherwise it sets the flag, calls [show] on the renderer if
    there is one, and then either fires [show] at once or, when there are both
    a renderer and a map, registers the firing as a one-shot callback on the
    map's [renderend], so that [show] is fired by the next [renderend] and not
    before.  [hide()] does the same for the cleared flag and [hide]. *)
Theorem show_hide_deferred_to_renderend (w : World) :
  show w =
    Ok This
      (if truthy (visible (options (this w))) then w
       else
         let w1 := tell_renderer RendererShow (set_visible true w) in
         if has_renderer w && attached w
         then defer "renderend" (CbFire "show") w1
         else after_fire w1 "show" None)
  ∧ hide w =
      Ok This
        (if truthy (visible (options (this w))) then
           let w1 := tell_renderer RendererHide (set_visible false w) in
           if has_renderer w && attached w
           then defer "renderend" (CbFire "hide") w1
           else after_fire w1 "hide" None
         else w)
  ∧ (∀ eventType : string,
       log (defer "renderend" (CbFire eventType) w) = log w
       ∧ Map_fire "renderend" (defer "renderend" (CbFire eventType) w)
         = (Map_fire "renderend";; fire eventType None;; mret tt) w).
Proof.
  split; [apply show_eq|]. split; [apply hide_eq|].
  intros eventType. split; [by destruct w|]. apply Map_fire_defer.
Qed.

Lemma Qltb_true (a b : Q) : Qltb a b = true ↔ (a < b)%Q.
Proof.
  unfold Qltb. rewrite negb_true_iff, <- not_true_iff_false, Qle_bool_iff.
  split; [apply Qnot_le_lt | apply Qlt_not_le].
Qed.

Lemma Qltb_false (a b : Q) : Qltb a b = false ↔ (b <= a)%Q.
Proof. unfold Qltb. by rewrite negb_false_iff, Qle_bool_iff. Qed.

Lemma zoom_in_range_iff (o : Options) (zoom : Q) :
  (negb (isNil (maxZoom o)) && js_lt (maxZoom o) zoom)
  || (negb (isNil (minZoom o)) && js_gt (minZoom o) zoom) = false
  ↔ zoom_in_range o zoom.
Proof.
  unfold zoom_in_range. rewrite orb_false_iff.
  destruct (maxZoom o) as [| |mx], (minZoom o) as [| |mn]; simpl;
    rewrite ?Qltb_false; split.
  all: try (intros [H1 H2]; split; intros x Hx; inversion Hx; subst; assumption).
  all: intros [H1 H2]; split; first [reflexivity | by apply H1 | by apply H2].
Qed.

Lemma isVisible_eq (w : World) :
  isVisible w =
    let o := options (this w) in
    if isNumber (opacity o) && js_le (opacity o) 0 then Ok (val false) w
    else if attached w
            && ((negb (isNil (maxZoom o)) && js_lt (maxZoom o) (map_zoom (the_map w)))
                || (negb (isNil (minZoom o)) && js_gt (minZoom o) (map_zoom (the_map w))))
    then Ok (val false) w
    else if isNil (visible o) then Ok (val true) (set_visible true w)
    else Ok (visible o) w.
Proof.
  unfold isVisible, getMap, Map_get, attached, set_visible. unfold_monad.
  destruct w as [l mp ix nx lg]; simpl.
  destruct (isNumber _ && js_le _ _); [done|]. simpl.
  destruct (map l) as [[]|]; simpl.
  - destruct (_ || _); [done|]. by destruct (isNil _).
  - by destruct (isNil _).
Qed.

(** C3. [isVisible()] is false, and changes nothing, whenever the opacity
    is a number that is at most 0, whatever the zoom and the visible flag.
    Otherwise, on an attached layer whose map's zoom is outside
    [[minZoom, maxZoom]] (a nil bound is no limit), it is false as well.
    Otherwise it returns the stored visible option, after having set that
    option to [true] if it was nil. *)
Theorem isVisible_spec (w : World) :
  let o := options (this w) in
  (∀ q : Q, opacity o = val q → (q <= 0)%Q → isVisible w = Ok (val false) w)
  ∧ ((∀ q : Q, opacity o = val q → (0 < q)%Q) →
     (map (this w) = Some TheMap → ¬ zoom_in_range o (map_zoom (the_map w)) →
        isVisible w = Ok (val false) w)
     ∧ (map (this w) = None ∨ zoom_in_range o (map_zoom (the_map w)) →
        isVisible w =
          if isNil (visible o)
          then Ok (val true) (with_this (with_options (set_opt_visible (val true))) w)
          else Ok (visible o) w)).
Proof.
  intros o. rewrite isVisible_eq. fold o. cbv zeta. split.
  - intros q Hq Hle. rewrite Hq. simpl.
    by apply Qle_bool_iff in Hle as ->.
  - intros Hop.
    assert (isNumber (opacity o) && js_le (opacity o) 0 = false) as ->.
    { destruct (opacity o) as [| |q] eqn:Hq; simpl; try done.
      apply not_true_iff_false. rewrite Qle_bool_iff.
      apply Qlt_not_le. by apply Hop. }
    split.
    + intros Hm Hout. unfold attached. rewrite Hm. simpl.
      destruct (_ || _) eqn:Hb; [done|].
      by apply zoom_in_range_iff in Hb.
    + intros [Hm|Hin].
      * unfold attached. rewrite Hm. simpl. done.
      * apply zoom_in_range_iff in Hin. rewrite Hin, andb_false_r. done.
Qed.

(** ** Zoom bounds *)

Lemma Math_max_Qmax (a b : Q) : (Math_max a b == Qmax a b)%Q.
Proof.
  unfold Math_max. destruct (Qle_bool a b) eqn:H.
  - apply Qle_bool_iff in H. symmetry. by apply Q.max_r.
  - symmetry. apply Q.max_l. apply Qnot_lt_le. intros Hlt.
    apply Qlt_le_weak, Qle_bool_iff in Hlt. congruence.
Qed.

Lemma Math_min_Qmin (a b : Q) : (Math_min a (Fin b) == Qmin a b)%Q.
Proof.
  simpl. destruct (Qle_bool a b) eqn:H.
  - apply Qle_bool_iff in H. symmetry. by apply Q.min_l.
  - symmetry. apply Q.min_r. apply Qnot_lt_le. intros Hlt.
    apply Qlt_le_weak, Qle_bool_iff in Hlt. congruence.
Qed.

Lemma or_zero_val (q : Q) : (or_zero (val q) == q)%Q.
Proof.
  simpl. destruct (Qeq_bool q 0) eqn:H; [|reflexivity].
  apply Qeq_bool_iff in H. by symmetry.
Qed.

Lemma getMinZoom_eq (w : World) :
  getMinZoom w =
    Ok (if attached w
        then val (Math_max (map_minZoom (the_map w))
                           (or_zero (minZoom (options (this w)))))
        else minZoom (options (this w))) w.
Proof.
  unfold getMinZoom, getMap, Map_get, attached. unfold_monad.
  destruct w as [l mp ix nx lg]; simpl. by destruct (map l) as [[]|].
Qed.

Lemma getMaxZoom_eq (w : World) :
  getMaxZoom w =
    Ok (if attached w
        then val (Math_min (map_maxZoom (the_map w))
                    (match maxZoom (options (this w)) with
                     | val q => Fin q
                     | _ => Infinity
                     end))
        else maxZoom (options (this w))) w.
Proof.
  unfold getMaxZoom, getMap, Map_get, attached. unfold_monad.
  destruct w as [l mp ix nx lg]; simpl. by destruct (map l) as [[]|].
Qed.

(** C6, as amended. On an attached layer [getMinZoom()] is the maximum of
    the map's minimum and the layer's own, where a nil bound of the layer
    counts as 0 (not as no bound), and [getMaxZoom()] is the minimum of the
    map's maximum and the layer's own, where a nil bound is no bound; the
    first is at least the map's minimum and the second at most the map's
    maximum.  On a detached layer both return the layer's option as it is. *)
Theorem getMinZoom_getMaxZoom_clamp (w : World) :
  (map (this w) = Some TheMap →
   ∃ lo hi : Q,
     getMinZoom w = Ok (val lo) w
     ∧ getMaxZoom w = Ok (val hi) w
     ∧ (lo == Qmax (map_minZoom (the_map w))
                   (match minZoom (options (this w)) with
                    | val q => q
                    | _ => 0
                    end))%Q
     ∧ (hi == match maxZoom (options (this w)) with
              | val q => Qmin (map_maxZoom (the_map w)) q
              | _ => map_maxZoom (the_map w)
              end)%Q
     ∧ (map_minZoom (the_map w) <= lo)%Q
     ∧ (hi <= map_maxZoom (the_map w))%Q
     ∧ (isNil (minZoom (options (this w))) = true →
        (0 <= map_minZoom (the_map w))%Q → (lo == map_minZoom (the_map w))%Q))
  ∧ (map (this w) = None →
     getMinZoom w = Ok (minZoom (options (this w))) w
     ∧ getMaxZoom w = Ok (maxZoom (options (this w))) w).
Proof.
  rewrite getMinZoom_eq, getMaxZoom_eq. unfold attached. split.
  - intros ->. simpl. eexists _, _. split; [reflexivity|]. split; [reflexivity|].
    assert (Hlo : (Math_max (map_minZoom (the_map w))
                     (or_zero (minZoom (options (this w))))
                   == Qmax (map_minZoom (the_map w))
                        (match minZoom (options (this w)) with
                         | val q => q
                         | _ => 0
                         end))%Q).
    { rewrite Math_max_Qmax.
      destruct (minZoom (options (this w))) as [| |q]; try reflexivity.
      by rewrite or_zero_val. }
    assert (Hhi : (Math_min (map_maxZoom (the_map w))
                     (match maxZoom (options (this w)) with
                      | val q => Fin q
                      | _ => Infinity
                      end)
                   == match maxZoom (options (this w)) with
                      | val q => Qmin (map_maxZoom (the_map w)) q
                      | _ => map_maxZoom (the_map w)
                      end)%Q).
    { destruct (maxZoom (options (this w))) as [| |q]; try reflexivity.
      apply Math_min_Qmin. }
    split; [exact Hlo|]. split; [exact Hhi|]. split; [|split].
    + rewrite Hlo. apply Q.le_max_l.
    + rewrite Hhi. destruct (maxZoom (options (this w))) as [| |q];
        [apply Qle_refl..|apply Q.le_min_l].
    + intros Hnil Hpos. rewrite Hlo.
      destruct (minZoom (options (this w))) as [| |q]; [..|done];
        by apply Q.max_l.
  - intros ->. simpl. done.
Qed.

(** ** Collision index *)

Lemma getCollisionIndex_eq (w : World) :
  getCollisionIndex w =
    if scope_is_layer w then
      match own_index w with
      | Some r => Ok (Some r) w
      | None => Ok (Some (next_index w)) (with_new_index w)
      end
    else Ok (if attached w then Some (shared_index w) else None) w.
Proof.
  unfold getCollisionIndex, CollisionIndex_new, getMap, Map_get, attached,
    own_index, shared_index, with_new_index.
  unfold_monad. destruct w as [l mp ix nx lg]; simpl.
  destruct (scope_is_layer _); simpl.
  - destruct (_collisionIndex l) eqn:Hc; simpl; rewrite ?Hc; simpl; done.
  - by destruct (map l) as [[]|].
Qed.

Lemma clearCollisionIndex_eq (w : World) :
  clearCollisionIndex w =
    Ok This
      (match own_index w with
       | Some r => if scope_is_layer w then with_index_cleared r w else w
       | None => w
       end).
Proof.
  unfold clearCollisionIndex, CollisionIndex_clear, own_index, with_index_cleared.
  unfold_monad. destruct w as [l mp ix nx lg]; simpl.
  destruct (scope_is_layer _), (_collisionIndex l); done.
Qed.

(** ** Mask *)

Lemma mask_accepted_iff (mask : Geometry) :
  mask_accepted mask = true ↔ accepted_kind mask.
Proof.
  unfold mask_accepted, accepted_kind.
  rewrite !orb_true_iff, andb_true_iff, !String.eqb_eq. tauto.
Qed.

Lemma redraw_unless_zooming_eq (w : World) :
  redraw_unless_zooming w =
    Ok This (if can_redraw w
             then with_log (fun l => l ++ [RendererSetToRedraw]) w else w).
Proof.
  unfold redraw_unless_zooming, getMap, _getRenderer, Map_get,
    Renderer_call_optional, can_redraw, attached.
  unfold_monad. destruct w as [l mp ix nx lg]; simpl.
  destruct (map l) as [[]|]; simpl; [|done].
  destruct (map_zooming mp); simpl; [done|].
  destruct (_renderer l) as [r|] eqn:Hr; simpl; rewrite ?Hr; [|done].
  destruct (has_setToRedraw (clazz r)) eqn:Hh; simpl; rewrite ?Hr, ?Hh; done.
Qed.

Lemma setMask_eq (mask : Geometry) (w : World) :
  setMask mask w =
    if mask_accepted mask
    then redraw_unless_zooming (with_mask_stored mask w)
    else Throw InvalidMaskError w.
Proof.
  unfold setMask, with_mask_stored, restyled, restyle_calls.
  destruct (mask_accepted mask); simpl; [|done].
  unfold_monad. destruct w as [l mp ix nx lg]; simpl.
  destruct (String.eqb (type mask) "Point"); simpl;
    unfold with_log; simpl; rewrite <- app_assoc; reflexivity.
Qed.

(** C5. [setMask] on a geometry that is neither a point with vector-marker
    styling, nor a polygon, nor a multi-polygon throws the mask error and
    leaves the world as it was: nothing stored, no option set, no call made
    to the mask.  On an accepted geometry it returns the layer; the mask has
    been bound to the layer and restyled to draw nothing, by [updateSymbol]
    for a point and by [setSymbol] for the others, and the layer holds both
    the restyled geometry and its serialized form. *)
Theorem setMask_validates_binds_restyles (g : Geometry) (w : World) :
  (¬ accepted_kind g → setMask g w = Throw InvalidMaskError w)
  ∧ (accepted_kind g →
     ∃ (w' : World) (m : Geometry),
       setMask g w = Ok This w'
       ∧ _mask (this w') = Some m
       ∧ mask (options (this w')) = Some (Geometry_toJSON m)
       ∧ type m = type g
       ∧ _layer m = Some This
       ∧ (type g = "Point" →
          symbol m = point_mask_symbol ∪ symbol g
          ∧ symbol m !! "markerLineColor" = Some (VStr "rgba(0, 0, 0, 0)")
          ∧ symbol m !! "markerFillOpacity" = Some (VNum 0)
          ∧ ∃ rest, log w' =
              log w ++ [MaskBindLayer; MaskUpdateSymbol point_mask_symbol] ++ rest)
       ∧ (type g ≠ "Point" →
          symbol m = polygon_mask_symbol
          ∧ symbol m !! "lineColor" = Some (VStr "rgba(0, 0, 0, 0)")
          ∧ symbol m !! "polygonOpacity" = Some (VNum 0)
          ∧ ∃ rest, log w' =
              log w ++ [MaskBindLayer; MaskSetSymbol polygon_mask_symbol] ++ rest)).
Proof.
  rewrite setMask_eq, <- mask_accepted_iff. split.
  - intros H%not_true_is_false. by rewrite H.
  - intros ->. rewrite redraw_unless_zooming_eq.
    exists (if can_redraw (with_mask_stored g w)
            then with_log (fun l => l ++ [RendererSetToRedraw]) (with_mask_stored g w)
            else with_mask_stored g w), (restyled g).
    split; [done|].
    assert (Hlog : ∃ rest,
      log (if can_redraw (with_mask_stored g w)
           then with_log (fun l => l ++ [RendererSetToRedraw]) (with_mask_stored g w)
           else with_mask_stored g w)
      = log w ++ restyle_calls g ++ rest).
    { destruct (can_redraw _); simpl.
      - exists [RendererSetToRedraw]. by rewrite <- app_assoc.
      - exists []. by rewrite ?app_nil_r. }
    split; [by destruct (can_redraw _)|]. split; [by destruct (can_redraw _)|].
    unfold restyled, restyle_calls in *.
    destruct (String.eqb (type g) "Point") eqn:Hp.
    + split; [done|]. split; [done|]. split.
      * intros _. repeat split; try done.
        all: simpl; apply lookup_union_Some_l; by vm_compute.
      * apply String.eqb_eq in Hp. done.
    + split; [done|]. split; [done|]. split.
      * intros Hp'. apply String.eqb_neq in Hp. done.
      * intros _. repeat split; try done.
Qed.

(** ** Loading *)

Lemma _initRenderer_eq (w : World) :
  _initRenderer w =
    match getRendererClass (constructor (this w)) with
    | None => Ok tt w
    | Some lookup =>
        match lookup (renderer (options (this w))) with
        | None =>
            Throw (UnknownRendererError (_id (this w)) (renderer (options (this w)))) w
        | Some cls => Ok tt (with_renderer_created cls w)
        end
    end.
Proof.
  unfold _initRenderer, getId, getZIndex, _switchEvents, getMap, Map_switch,
    Renderer_call, Renderer_call_optional, with_renderer_created, creation_calls,
    renderercreate_payload, UnknownRendererError.
  unfold_monad. destruct w as [l mp ix nx lg]; simpl.
  destruct (getRendererClass (constructor l)) as [lookup|]; [|done].
  destruct (lookup (renderer (options l))) as [cls|]; [|done]. simpl.
  destruct (renderer_getEvents cls) as [evs|] eqn:He;
    destruct (map l) as [[]|] eqn:Hm; simpl;
    destruct (has_onAdd cls) eqn:Ha; simpl; rewrite ?Ha; simpl;
    rewrite fire_eq; unfold with_log, with_this; simpl;
    rewrite <- ?app_assoc; simpl; reflexivity.
Qed.

Lemma load_eq (w : World) :
  load w =
    if attached w then
      let w1 := with_log (fun l => l ++ [HookOnLoad]) w in
      if onLoad (constructor (this w)) then
        match _initRenderer w1 with
        | Ok _ w2 =>
            if _renderer (this w2) is Some _
            then Ok This (with_log (fun l => l ++ load_tail w2) w2)
            else Throw TypeError w2
        | Throw e w2 => Throw e w2
        | OutOfFuel => OutOfFuel
        end
      else Ok This w1
    else Ok This w.
Proof.
  unfold load, getMap, attached, getZIndex, isCanvasRender, _getRenderer,
    Renderer_call, load_tail.
  unfold_monad. destruct w as [l mp ix nx lg]; simpl.
  destruct (map l) as [[]|]; simpl; [|done].
  destruct (onLoad (constructor l)); simpl; [|done].
  match goal with |- context [_initRenderer ?w1] =>
    destruct (_initRenderer w1) as [[] w2|e w2|] end; [|done..].
  destruct (_renderer (this w2)) as [r|] eqn:Hr; simpl; [|done].
  rewrite ?Hr. simpl.
  destruct (isCanvasRenderer (clazz r)); simpl; rewrite ?Hr; simpl;
    unfold with_log; destruct w2; simpl; rewrite <- ?app_assoc; reflexivity.
Qed.

(** What [load()] does for a layer whose class has a renderer registry.
    It returns the layer.  Detached, it does nothing.  Attached,
    it calls [onLoad()]; if that returns false nothing else happens: no
    renderer is created and [onLoadEnd()] is not called.  If it returns true
    the renderer is initialized through the class's registry: for a kind
    without a registered implementation [load()] throws the error that names
    the layer id and the kind, the layer's renderer is what it was and no
    hook other than [onLoad()] has run; for a registered kind the renderer is
    created and attached, then the z-index (the one that was set, 0 if none)
    goes to the renderer, a renderer that is not a canvas renderer is told to
    render, and [onLoadEnd()] comes last. *)
Theorem load_lifecycle (w : World) :
  (map (this w) = None → load w = Ok This w)
  ∧ (map (this w) = Some TheMap → onLoad (constructor (this w)) = false →
     load w = Ok This (with_log (fun l => l ++ [HookOnLoad]) w))
  ∧ (∀ lookup : string → option RendererClass,
       map (this w) = Some TheMap →
       onLoad (constructor (this w)) = true →
       getRendererClass (constructor (this w)) = Some lookup →
       (lookup (renderer (options (this w))) = None →
        load w =
          Throw (Error ("Invalid renderer for Layer(" +:+ to_str (_id (this w))
                        +:+ "):" +:+ renderer (options (this w))))
                (with_log (fun l => l ++ [HookOnLoad]) w))
       ∧ (∀ cls : RendererClass,
            lookup (renderer (options (this w))) = Some cls →
            ∃ w' : World,
              load w = Ok This w'
              ∧ _renderer (this w') = Some (mkRenderer cls (Some This))
              ∧ (∀ q : Q, _zIndex (this w) = val q → (zIndex_of w This == q)%Q)
              ∧ log w' =
                  log w ++ [HookOnLoad]
                  ++ creation_calls cls w
                  ++ [MapOnLayerEvent (stamp "renderercreate" (renderercreate_payload cls));
                      Dispatch "renderercreate"
                        (Some (stamp "renderercreate" (renderercreate_payload cls)))]
                  ++ [RendererSetZIndex (val (zIndex_of w This))]
                  ++ (if isCanvasRenderer cls then [] else [RendererRender])
                  ++ [HookOnLoadEnd])).
Proof.
  rewrite load_eq. unfold attached. split; [|split].
  - by intros ->.
  - by intros -> ->.
  - intros lookup Hm Hl Hreg. rewrite Hm, Hl. simpl.
    rewrite _initRenderer_eq. simpl. rewrite Hreg. split.
    + by intros ->.
    + intros cls ->. eexists. split; [reflexivity|]. split; [done|]. split.
      * intros q Hq. simpl. rewrite Hq. apply or_zero_val.
      * destruct w as [l mp ix nx lg]. simpl in *.
        unfold fired, mirrored, dispatched, attached, load_tail, creation_calls.
        simpl. rewrite Hm. simpl.
        destruct (renderer_getEvents cls), (has_onAdd cls); simpl;
          rewrite <- ?app_assoc; reflexivity.
Qed.

(** ** Z-order *)

Lemma setZIndex_eq (z : Nilable Q) (w : World) :
  setZIndex z w =
    Ok This
      (after_fire (tell_renderer (RendererSetZIndex z) (resorted (with_zIndex z w)))
         "setzindex" (Some (zindex_payload z))).
Proof.
  unfold setZIndex, Map_sortLayersByZIndex, Renderer_call, tell_renderer,
    has_renderer, resorted, attached, with_zIndex, zindex_payload.
  unfold_monad. destruct w as [l mp ix nx lg]; simpl.
  destruct z as [| |q]; simpl;
    destruct (map l) as [[]|] eqn:Hm; simpl; rewrite ?Hm; simpl;
    destruct (_renderer l) as [r|] eqn:Hr; simpl; rewrite ?Hr; simpl;
    rewrite fire_eq; reflexivity.
Qed.

(** C4. On a layer that is on a map, has no renderer yet, whose
    [onLoad()] returns true and whose class has no renderer registry,
    [_initRenderer()] returns through its guard without creating a renderer,
    and [load()] goes on to push the z-index ([getZIndex()] is never nil) to
    the renderer that is not there: it throws a [TypeError], after [onLoad()]
    and before [onLoadEnd()], where it should return the layer.  The same
    push in [setZIndex] is guarded by [if (this._renderer)], and returns. *)
Theorem load_without_registry (w : World) :
  map (this w) = Some TheMap →
  onLoad (constructor (this w)) = true →
  getRendererClass (constructor (this w)) = None →
  _renderer (this w) = None →
  _initRenderer (with_log (fun l => l ++ [HookOnLoad]) w)
  = Ok tt (with_log (fun l => l ++ [HookOnLoad]) w)
  ∧ load w = Throw TypeError (with_log (fun l => l ++ [HookOnLoad]) w)
  ∧ (∃ w' : World,
       setZIndex (val (zIndex_of w This)) w = Ok This w'
       ∧ _renderer (this w') = None).
Proof.
  intros Hm Hl Hreg Hr. split; [|split].
  - rewrite _initRenderer_eq.
    change (constructor (this (with_log ?f ?w0))) with (constructor (this w0)).
    by rewrite Hreg.
  - rewrite load_eq. unfold attached. rewrite Hm, Hl. simpl.
    rewrite _initRenderer_eq. simpl. rewrite Hreg. simpl. by rewrite Hr.
  - rewrite setZIndex_eq. eexists. split; [reflexivity|].
    unfold after_fire, tell_renderer, resorted, has_renderer, attached.
    destruct w as [l mp ix nx lg]; simpl in *. rewrite Hm. simpl.
    rewrite ?Hr. simpl. exact Hr.
Qed.

Lemma _getLayerList_eq (w : World) : _getLayerList w = Ok (layer_list w) w.
Proof.
  unfold _getLayerList, Map_get, layer_list, attached. unfold_monad.
  by destruct (map (this w)) as [[]|].
Qed.

Lemma bringToFront_eq (w : World) :
  bringToFront w =
    match last (layer_list w) with
    | None => Ok This w
    | Some topLayer =>
        if Nat.eqb (length (layer_list w)) 1 || is_this topLayer then Ok This w
        else setZIndex (val (js_add (zIndex_of w topLayer) 1)) w
    end.
Proof.
  unfold bringToFront. erewrite bind_Ok by apply _getLayerList_eq.
  rewrite last_lookup.
  destruct (layer_list w) as [|x l] eqn:Hl; [done|].
  rewrite <- Hl.
  replace (Nat.eqb (length (layer_list w)) 0) with false
    by (rewrite Hl; reflexivity).
  replace (Nat.pred (length (layer_list w))) with (length (layer_list w) - 1)%nat
    by lia.
  destruct (layer_list w !! (length (layer_list w) - 1)%nat) as [top|] eqn:Ht.
  - destruct (_ || _); [done|].
    unfold mbind, M_bind, bind, gets, mret, M_ret, ret.
    by rewrite !setZIndex_eq.
  - apply lookup_ge_None in Ht. rewrite Hl in Ht. simpl in Ht. lia.
Qed.

Section Sorting.
Variable key : LayerRef → Q.

Lemma insert_by_perm (x : LayerRef) (l : list LayerRef) :
  insert_by key x l ≡ₚ x :: l.
Proof.
  induction l as [|y l IH]; simpl; [done|].
  destruct (Qle_bool (key x) (key y)); [done|].
  rewrite IH. apply perm_swap.
Qed.

Lemma sort_by_perm (l : list LayerRef) : sort_by key l ≡ₚ l.
Proof.
  induction l as [|x l IH]; simpl; [done|].
  by rewrite insert_by_perm, IH.
Qed.

Lemma insert_by_ordered (x : LayerRef) (l : list LayerRef) :
  z_ordered key l → z_ordered key (insert_by key x l).
Proof.
  unfold z_ordered. induction l as [|y l IH]; intros Hl; simpl.
  - repeat constructor.
  - apply StronglySorted_inv in Hl as [Hl Hy].
    destruct (Qle_bool (key x) (key y)) eqn:Hxy.
    + apply Qle_bool_iff in Hxy. constructor; [by constructor|].
      constructor; [done|].
      eapply Forall_impl; [exact Hy|]. intros z Hz. simpl in Hz.
      by apply Qle_trans with (key y).
    + constructor; [by apply IH|].
      rewrite insert_by_perm. constructor; [|done].
      apply Qlt_le_weak, Qnot_le_lt. intros H%Qle_bool_iff. congruence.
Qed.

Lemma sort_by_ordered (l : list LayerRef) : z_ordered key (sort_by key l).
Proof.
  induction l as [|x l IH]; simpl; [constructor|].
  by apply insert_by_ordered.
Qed.


End Sorting.

Lemma layer_list_after_setZIndex (z : Nilable Q) (w : World) :
  map (this w) = Some TheMap →
  layer_list
    (after_fire (tell_renderer (RendererSetZIndex z) (resorted (with_zIndex z w)))
       "setzindex" (Some (zindex_payload z)))
  = sort_by (zIndex_of (with_zIndex z w)) (_layers (the_map w)).
Proof.
  intros Hm. destruct w as [l mp ix nx lg]; simpl in *.
  unfold layer_list, attached, after_fire, tell_renderer, has_renderer, resorted,
    attached, with_zIndex; simpl. rewrite Hm; simpl.
  destruct (_renderer l); simpl; rewrite Hm; reflexivity.
Qed.

(** *** Rounding

    Up to 2^53 in magnitude the integers are numbers, so that adding or
    subtracting 1 is exact there; beyond, it need not change the number. *)

Lemma round_half_even_product (k p : Z) :
  round_half_even (inject_Z k * inject_Z p) = (k * p)%Z.
Proof.
  unfold round_half_even, inject_Z, Qmult. cbn [Qnum Qden Pos.mul].
  rewrite Z.mod_1_r, Z.div_1_r. reflexivity.
Qed.

Lemma binade_integer_bound (k : Z) :
  (Z.abs k < 2 ^ 53)%Z → (binade (inject_Z k) <= 52)%Z.
Proof.
  intros Hk. unfold binade, inject_Z. cbn [Qnum Qden].
  change (Z.log2 1) with 0%Z. rewrite Z.sub_0_r.
  assert (Z.log2 (Z.abs k) <= 52)%Z.
  { destruct (Z.eq_dec (Z.abs k) 0%Z) as [->|Hne]; [cbn; lia|].
    assert (Z.log2 (Z.abs k) < 53)%Z; [|lia].
    apply Z.log2_lt_pow2; lia. }
  destruct (Qle_bool _ _); lia.
Qed.

Lemma round_double_integer (k : Z) :
  (Z.abs k < 2 ^ 53)%Z → (round_double (inject_Z k) == inject_Z k)%Q.
Proof.
  intros Hk. unfold round_double.
  destruct (Qeq_bool (inject_Z k) 0) eqn:H0.
  { apply Qeq_bool_iff in H0. symmetry. exact H0. }
  pose proof (binade_integer_bound k Hk) as Hb.
  set (q := Z.max (binade (inject_Z k) - 52) (-1074)).
  assert (Hq : (-1074 <= q <= 0)%Z) by lia.
  clearbody q. unfold scale2 at 2.
  replace (0 <=? - q)%Z with true by (symmetry; apply Z.leb_le; lia).
  rewrite round_half_even_product. unfold scale2.
  assert (Hp : (0 < 2 ^ (- q))%Z) by (apply Z.pow_pos_nonneg; lia).
  destruct (0 <=? q)%Z eqn:Hq0.
  - apply Z.leb_le in Hq0. assert (q = 0%Z) as -> by lia.
    change (2 ^ (- 0))%Z with 1%Z. change (2 ^ 0)%Z with 1%Z.
    rewrite Z.mul_1_r. ring.
  - rewrite inject_Z_mult. field.
    intros H. unfold Qeq, inject_Z in H. cbn [Qnum Qden] in H. lia.
Qed.

Lemma round_double_two_53 :
  (round_double (inject_Z (2 ^ 53)) == inject_Z (2 ^ 53))%Q
  ∧ (round_double (inject_Z (- 2 ^ 53)) == inject_Z (- 2 ^ 53))%Q.
Proof. split; vm_compute; reflexivity. Qed.

(** Integers up to 2^53 in magnitude are binary64 values: rounding leaves
    them as they are. *)
Lemma round_double_exact (k : Z) :
  (Z.abs k <= 2 ^ 53)%Z → (round_double (inject_Z k) == inject_Z k)%Q.
Proof.
  intros Hk. destruct (Z.eq_dec (Z.abs k) (2 ^ 53)%Z) as [He|Hne].
  - destruct (Z.abs_eq_or_opp k) as [H|H]; rewrite H in He.
    + rewrite He. apply round_double_two_53.
    + assert (k = (- 2 ^ 53)%Z) as -> by lia. apply round_double_two_53.
  - apply round_double_integer. lia.
Qed.


Lemma js_sub_one_less (k : Z) :
  (- 2 ^ 53 < k <= 2 ^ 53)%Z → (js_sub (inject_Z k) 1 < inject_Z k)%Q.
Proof.
  intros Hk. unfold js_sub.
  assert (Hr : round_double (inject_Z k - 1) = round_double (inject_Z (k - 1))).
  { f_equal. unfold inject_Z, Qminus, Qplus, Qopp. cbn [Qnum Qden Pos.mul].
    f_equal. lia. }
  rewrite Hr, round_double_exact by lia.
  rewrite <- Zlt_Qlt. lia.
Qed.


Lemma z_ordered_ext (key key' : LayerRef → Q) (l : list LayerRef) :
  (∀ x, key x = key' x) → z_ordered key l → z_ordered key' l.
Proof.
  intros Hk. unfold z_ordered. induction 1 as [|x l Hl IH Hx]; constructor; [done|].
  eapply Forall_impl; [exact Hx|]. intros y Hy. simpl in *. by rewrite <- !Hk.
Qed.

(** After [setZIndex] on an attached layer the map's list is ordered. *)
Lemma setZIndex_orders (z : Nilable Q) (w w1 : World) :
  map (this w) = Some TheMap →
  setZIndex z w = Ok This w1 →
  z_ordered (zIndex_of w1) (layer_list w1).
Proof.
  intros Hm. rewrite setZIndex_eq. intros [= <-].
  rewrite layer_list_after_setZIndex by done.
  eapply z_ordered_ext; [|apply (sort_by_ordered (zIndex_of (with_zIndex z w)))].
  intros x. unfold tell_renderer, after_fire, resorted. simpl.
  by destruct x, (attached _), (has_renderer _).
Qed.

(** ** Absence of exceptions *)

Lemma returns_bind {A B : Type} (m : M A) (k : A -> M B) :
  returns m → (∀ a, returns (k a)) → returns (m ≫= k).
Proof.
  intros Hm Hk w. destruct (Hm w) as (a & w1 & H1).
  erewrite bind_Ok by exact H1. apply Hk.
Qed.

Lemma returns_ret {A : Type} (a : A) : returns (mret a : M A).
Proof. intros w. by exists a, w. Qed.

Lemma returns_gets {A : Type} (f : World -> A) : returns (gets f).
Proof. intros w. by exists (f w), w. Qed.

Lemma returns_modify (f : World -> World) : returns (modify f).
Proof. intros w. by exists tt, (f w). Qed.

Lemma returns_emit (e : Effect) : returns (emit e).
Proof. apply returns_modify. Qed.

Lemma returns_when (b : bool) (m : M unit) : (b = true → returns m) → returns (when b m).
Proof. destruct b; [auto|]. intros _. apply returns_ret. Qed.

Lemma returns_fire (eventType : string) (param : option Payload) :
  returns (fire eventType param).
Proof. intros w. rewrite fire_eq. eauto. Qed.

Lemma returns_eq {A : Type} (m : M A) (f : World → A) (g : World → World) :
  (∀ w, m w = Ok (f w) (g w)) → returns m.
Proof. intros H w. rewrite H. eauto. Qed.

Create HintDb returns.
#[local] Hint Resolve returns_ret returns_gets returns_modify returns_emit
  returns_fire : returns.

Ltac returns_step :=
  lazymatch goal with
  | |- returns (_ ≫= _) => apply returns_bind; [|intros ?]
  | |- returns (when _ _) => apply returns_when; intros ?
  | |- returns (match ?x with _ => _ end) => destruct x eqn:?
  | |- returns (let _ := _ in _) => cbv zeta
  | m : MapRef |- _ => destruct m
  | H : bool_decide (is_Some None) = true |- _ => by vm_compute in H
  | |- _ => solve [auto with returns]
  end.

Lemma returns_Map_get {A : Type} (f : Map → A) : returns (Map_get (Some TheMap) f).
Proof. apply returns_gets. Qed.

Lemma returns_Renderer_call (r : Renderer) (e : Effect) :
  returns (Renderer_call (Some r) e).
Proof. apply returns_emit. Qed.

Lemma returns_Map_sortLayersByZIndex : returns (Map_sortLayersByZIndex (Some TheMap)).
Proof. unfold Map_sortLayersByZIndex. repeat returns_step. Qed.

Lemma returns_Map_once (event : string) (cb : Callback) :
  returns (Map_once (Some TheMap) event cb).
Proof. apply returns_modify. Qed.

Lemma returns_Map_switch (to : string) (evs : list string) (em : Emitter) :
  returns (Map_switch (Some TheMap) to evs em).
Proof. apply returns_emit. Qed.

#[local] Hint Resolve returns_Map_get returns_Renderer_call
  returns_Map_sortLayersByZIndex returns_Map_once returns_Map_switch : returns.

Lemma returns_getMap : returns getMap.
Proof. unfold getMap. repeat returns_step. Qed.

Lemma returns_setId (id : Nilable string) : returns (setId id).
Proof. eapply returns_eq, setId_eq. Qed.

Lemma returns_setZIndex (z : Nilable Q) : returns (setZIndex z).
Proof. eapply returns_eq, setZIndex_eq. Qed.

Lemma returns_getMinZoom : returns getMinZoom.
Proof. eapply returns_eq, getMinZoom_eq. Qed.

Lemma returns_getMaxZoom : returns getMaxZoom.
Proof. eapply returns_eq, getMaxZoom_eq. Qed.

Lemma returns_show : returns show.
Proof. eapply returns_eq, show_eq. Qed.

Lemma returns_hide : returns hide.
Proof. eapply returns_eq, hide_eq. Qed.

Lemma returns_redraw_unless_zooming : returns redraw_unless_zooming.
Proof. eapply returns_eq, redraw_unless_zooming_eq. Qed.

Lemma returns_clearCollisionIndex : returns clearCollisionIndex.
Proof. eapply returns_eq, clearCollisionIndex_eq. Qed.

Lemma returns_getCollisionIndex : returns getCollisionIndex.
Proof.
  intros w. rewrite getCollisionIndex_eq.
  destruct (scope_is_layer w), (own_index w); eauto.
Qed.

Lemma returns_isVisible : returns isVisible.
Proof.
  intros w. rewrite isVisible_eq. cbv zeta.
  repeat match goal with |- context [if ?b then _ else _] => destruct b end; eauto.
Qed.

#[local] Hint Resolve returns_getMap returns_setId returns_setZIndex
  returns_getMinZoom returns_getMaxZoom returns_show returns_hide
  returns_redraw_unless_zooming returns_clearCollisionIndex
  returns_getCollisionIndex returns_isVisible : returns.

Lemma bringToBack_eq (w : World) :
  bringToBack w =
    match head (layer_list w) with
    | None => Ok This w
    | Some bottomLayer =>
        if Nat.eqb (length (layer_list w)) 1 || is_this bottomLayer then Ok This w
        else setZIndex (val (js_sub (zIndex_of w bottomLayer) 1)) w
    end.
Proof.
  unfold bringToBack. erewrite bind_Ok by apply _getLayerList_eq.
  destruct (layer_list w) as [|x l] eqn:Hl; [done|]. simpl.
  destruct (_ || _); [done|].
  unfold mbind, M_bind, bind, gets, mret, M_ret, ret.
  by rewrite !setZIndex_eq.
Qed.

Lemma returns_bringToFront : returns bringToFront.
Proof.
  intros w. rewrite bringToFront_eq.
  destruct (last _); [destruct (_ || _)|]; eauto. apply returns_setZIndex.
Qed.

Lemma returns_bringToBack : returns bringToBack.
Proof.
  intros w. rewrite bringToBack_eq.
  destruct (head _); [destruct (_ || _)|]; eauto. apply returns_setZIndex.
Qed.

Lemma returns_Renderer_call_optional (r : Renderer) (has : RendererClass → bool)
    (e : Effect) :
  has (clazz r) = true → returns (Renderer_call_optional (Some r) has e).
Proof. intros H. unfold Renderer_call_optional. rewrite H. apply returns_emit. Qed.

Lemma returns_onConfig (conf : option (gmap string Value)) : returns (onConfig conf).
Proof.
  unfold onConfig, getRenderer, _getRenderer. repeat returns_step.
  match goal with a : option Renderer |- _ => destruct a as [r|]; [|done] end.
  by apply returns_Renderer_call_optional.
Qed.

Lemma returns_setOpacity (op : Nilable Q) : returns (setOpacity op).
Proof.
  unfold setOpacity, config_opacity. pose proof returns_onConfig.
  repeat returns_step.
Qed.

Lemma returns_switchEvents (to : string) (em : Emitter) : returns (_switchEvents to em).
Proof.
  unfold _switchEvents. repeat returns_step.
Qed.

Lemma returns_bindMap (mp : option MapRef) (z : Nilable Q) : returns (_bindMap mp z).
Proof.
  unfold _bindMap. pose proof returns_switchEvents. repeat returns_step.
Qed.

Lemma _doRemove_eq (w : World) :
  ∃ w' : World, _doRemove w = Ok tt w'
    ∧ map (this w') = None ∧ _renderer (this w') = None
    ∧ _collisionIndex (this w') = None ∧ _loaded (this w') = false.
Proof.
  unfold _doRemove, _switchEvents, getMap, Map_switch, Renderer_call.
  unfold_monad. destruct w as [l mp ix nx lg]; simpl.
  destruct (getEvents (constructor l)) as [evs|];
    destruct (map l) as [[]|] eqn:Hm; simpl; rewrite ?Hm; simpl;
    destruct (_renderer l) as [r|] eqn:Hr; simpl; rewrite ?Hr; simpl;
    try (destruct (renderer_getEvents (clazz r)) as [evs'|]; simpl; rewrite ?Hm, ?Hr; simpl);
    rewrite ?Hr; unfold_monad; simpl; eauto 10.
Qed.

Lemma returns_doRemove : returns _doRemove.
Proof. intros w. destruct (_doRemove_eq w) as (w' & H & _). eauto. Qed.

Lemma returns_remove : returns remove.
Proof.
  unfold remove, Map_removeLayer. pose proof returns_doRemove.
  repeat returns_step.
Qed.

Lemma returns_removeMask : returns removeMask.
Proof. unfold removeMask. repeat returns_step. Qed.

Lemma returns_getProjection : returns getProjection.
Proof. unfold getProjection. repeat returns_step. Qed.

Lemma returns_isCanvasRender : returns isCanvasRender.
Proof. unfold isCanvasRender, _getRenderer. repeat returns_step. Qed.

Lemma returns_getMask2DExtent : returns _getMask2DExtent.
Proof.
  unfold _getMask2DExtent. do 2 returns_step; [auto with returns..|].
  match goal with a : option Geometry, m : option MapRef |- _ =>
    destruct a as [g|], m; [destruct (_maskPainter g)|..] end;
    auto with returns.
Qed.

Lemma returns_getLayerList : returns _getLayerList.
Proof. eapply returns_eq, _getLayerList_eq. Qed.

(** C9. Whatever the state of the layer (attached or not, with or without
    renderer, with or without mask), every operation other than [setMask]
    and [load], and [load] itself on a detached layer, returns: it throws
    nothing, not even on a missing collaborator. *)
Theorem operations_never_raise (op : Op) (w : World) :
  defensive op w → ∃ w' : World, run_op op w = Ok tt w'.
Proof.
  intros Hd.
  assert (Hret : returns (run_op op) → ∃ w', run_op op w = Ok tt w').
  { intros H. destruct (H w) as ([] & w' & Hw'). eauto. }
  destruct op; simpl in Hd; try done;
    try (assert (Hd' : True) by exact Hd; apply Hret; clear Hret Hd Hd'; simpl).
  - (* load, detached *)
    clear Hret. unfold run_op. erewrite bind_Ok; [by eexists|].
    rewrite load_eq. unfold attached. rewrite Hd. reflexivity.
  - unfold getId. repeat returns_step.
  - repeat returns_step.
  - repeat returns_step.
  - unfold getZIndex. repeat returns_step.
  - repeat returns_step.
  - repeat returns_step.
  - unfold getOpacity. repeat returns_step.
  - pose proof returns_setOpacity. repeat returns_step.
  - pose proof returns_isCanvasRender. repeat returns_step.
  - repeat returns_step.
  - pose proof returns_getProjection. repeat returns_step.
  - pose proof returns_bringToFront. repeat returns_step.
  - pose proof returns_bringToBack. repeat returns_step.
  - repeat returns_step.
  - repeat returns_step.
  - repeat returns_step.
  - pose proof returns_remove. repeat returns_step.
  - unfold getMask. repeat returns_step.
  - pose proof returns_removeMask. repeat returns_step.
  - unfold isLoaded. repeat returns_step.
  - repeat returns_step.
  - repeat returns_step.
  - unfold getRenderer, _getRenderer. repeat returns_step.
  - apply returns_onConfig.
  - repeat returns_step.
  - apply returns_bindMap.
  - apply returns_doRemove.
  - apply returns_switchEvents.
  - pose proof returns_getLayerList. repeat returns_step.
  - pose proof returns_getMask2DExtent. repeat returns_step.
Qed.

(** ** The collision index across the other operations *)

Lemma keeps_indexes_bind {A B : Type} (m : M A) (k : A -> M B) :
  keeps_indexes m → (∀ a, keeps_indexes (k a)) → keeps_indexes (m ≫= k).
Proof.
  intros Hm Hk w w'. unfold mbind, M_bind, bind.
  specialize (Hm w). destruct (m w) as [a w1|e w1|]; simpl in *; [|auto|done].
  intros H. rewrite (Hk a w1 w' H). by apply Hm.
Qed.

Lemma keeps_indexes_ret {A : Type} (a : A) : keeps_indexes (mret a : M A).
Proof. by intros w w' [= <-]. Qed.

Lemma keeps_indexes_throw {A : Type} (e : Exn) : keeps_indexes (throw e : M A).
Proof. by intros w w' [= <-]. Qed.

Lemma keeps_indexes_gets {A : Type} (f : World -> A) : keeps_indexes (gets f).
Proof. by intros w w' [= <-]. Qed.

Lemma keeps_indexes_modify (f : World -> World) :
  (∀ w, index_view (f w) = index_view w) → keeps_indexes (modify f).
Proof. intros Hf w w' [= <-]. apply Hf. Qed.

Lemma keeps_indexes_emit (e : Effect) : keeps_indexes (emit e).
Proof. by apply keeps_indexes_modify. Qed.

Lemma keeps_indexes_when (b : bool) (m : M unit) :
  keeps_indexes m → keeps_indexes (when b m).
Proof. destruct b; [done|]. intros _. apply keeps_indexes_ret. Qed.

Lemma keeps_indexes_fire (eventType : string) (param : option Payload) :
  keeps_indexes (fire eventType param).
Proof.
  intros w w'. rewrite fire_eq. intros [= <-].
  unfold after_fire. by destruct (String.eqb _ _).
Qed.

Create HintDb keeps_indexes.
#[local] Hint Resolve keeps_indexes_ret keeps_indexes_throw keeps_indexes_gets
  keeps_indexes_emit keeps_indexes_fire : keeps_indexes.

Ltac keeps_indexes_step :=
  lazymatch goal with
  | |- keeps_indexes (_ ≫= _) => apply keeps_indexes_bind; [|intros ?]
  | |- keeps_indexes (when _ _) => apply keeps_indexes_when
  | |- keeps_indexes (modify _) => apply keeps_indexes_modify; intros ?; reflexivity
  | |- keeps_indexes (match ?x with _ => _ end) => destruct x
  | |- keeps_indexes ((match ?x with _ => _ end) _) => destruct x
  | |- keeps_indexes (let _ := _ in _) => cbv zeta
  | |- _ => solve [auto with keeps_indexes]
  end.

Lemma keeps_indexes_setZIndex (z : Nilable Q) : keeps_indexes (setZIndex z).
Proof.
  unfold setZIndex, Map_sortLayersByZIndex, Renderer_call.
  repeat keeps_indexes_step.
Qed.

Lemma keeps_indexes_redraw : keeps_indexes redraw_unless_zooming.
Proof.
  unfold redraw_unless_zooming, getMap, _getRenderer, Map_get,
    Renderer_call_optional.
  repeat keeps_indexes_step.
Qed.

Lemma keeps_indexes_switchEvents (to : string) (em : Emitter) :
  keeps_indexes (_switchEvents to em).
Proof. unfold _switchEvents, getMap, Map_switch. repeat keeps_indexes_step. Qed.

Lemma keeps_indexes_initRenderer : keeps_indexes _initRenderer.
Proof.
  pose proof keeps_indexes_switchEvents.
  unfold _initRenderer, getId, getZIndex, Renderer_call, Renderer_call_optional.
  repeat keeps_indexes_step.
Qed.

Lemma keeps_indexes_onConfig (conf : option (gmap string Value)) :
  keeps_indexes (onConfig conf).
Proof.
  unfold onConfig, getRenderer, _getRenderer, Renderer_call_optional.
  repeat keeps_indexes_step.
Qed.

#[local] Hint Resolve keeps_indexes_setZIndex keeps_indexes_redraw
  keeps_indexes_switchEvents keeps_indexes_initRenderer keeps_indexes_onConfig
  : keeps_indexes.






Lemma scope_is_layer_iff (w : World) :
  scope_is_layer w = true ↔ collisionScope (options (this w)) = val "layer".
Proof.
  unfold scope_is_layer. destruct (collisionScope _) as [| |s]; try done.
  rewrite String.eqb_eq. split; congruence.
Qed.


(** ** The claims on concrete worlds *)

Lemma loaded_probe_quiet : quiet_when_loaded_is true loaded_probe.
Proof.
  split; simpl; intros; unfold expects_loaded; unfold_monad;
    by match goal with H : _loaded _ = true |- _ => rewrite H end.
Qed.

Lemma fire_order_witness :
  (∃ w' : World,
     fire "show" None attached_world = Ok This w'
     ∧ visiblechange_payload attached_world "show" None !! "old" = None)
  ∧ fire_rec loaded_probe 2 "layerload" None attached_world
    = fire "layerload" None attached_world
  ∧ _loaded (this attached_world) = false.
Proof.
  split; [|split; [|reflexivity]].
  - destruct (fire_order "show" None attached_world) as (w' & H & _ & _ & _ & Hk & _).
    exists w'. split; [exact H|].
    rewrite (Hk "old"); [reflexivity | discriminate | discriminate | discriminate].
  - destruct (fire_order "layerload" None attached_world)
      as (w' & H & _ & _ & _ & _ & _ & Hsubs).
    rewrite H. apply Hsubs. exact loaded_probe_quiet.
Defined.

(** [hide()] then [show()] on a rendered layer, then one [renderend]: both
    events wait for the [renderend] and come in the order of the calls; each
    [visiblechange] carries the visible option as it is when it fires, which
    is [true] for both. *)
Example hide_show_renderend :
  ∃ w' : World,
    (hide;; show;; Map_fire "renderend") rendered_world = Ok tt w'
    ∧ log w' =
        [RendererHide; RendererShow;
         MapOnLayerEvent (stamp "hide" ∅);
         Dispatch "hide" None;
         MapOnLayerEvent (deferred_visiblechange "hide" true);
         Dispatch "visiblechange" (Some (deferred_visiblechange "hide" true));
         MapOnLayerEvent (stamp "show" ∅);
         Dispatch "show" None;
         MapOnLayerEvent (deferred_visiblechange "show" true);
         Dispatch "visiblechange" (Some (deferred_visiblechange "show" true))]
    ∧ once_listeners (the_map w') = [].
Proof. eexists. split; [vm_compute; reflexivity|]. split; reflexivity. Qed.

Lemma isVisible_spec_witness :
  isVisible transparent_world = Ok (val false) transparent_world
  ∧ isVisible zoomed_out_world = Ok (val false) zoomed_out_world
  ∧ isVisible unset_visible_world
    = Ok (val true)
         (with_this (with_options (set_opt_visible (val true))) unset_visible_world).
Proof.
  split; [|split].
  - apply (proj1 (isVisible_spec transparent_world) 0%Q); [reflexivity|].
    vm_compute. discriminate.
  - apply (proj2 (isVisible_spec zoomed_out_world)).
    + intros q [= <-]. reflexivity.
    + reflexivity.
    + intros [H _]. specialize (H 3%Q eq_refl). vm_compute in H. by apply H.
  - apply (proj2 (isVisible_spec unset_visible_world)).
    + intros q [= <-]. reflexivity.
    + left. reflexivity.
Defined.

Lemma load_lifecycle_witness :
  load detached_world = Ok This detached_world
  ∧ load reluctant_world
    = Ok This (with_log (fun l => l ++ [HookOnLoad]) reluctant_world)
  ∧ load webgl_world
    = Throw (Error "Invalid renderer for Layer(roads):webgl")
            (with_log (fun l => l ++ [HookOnLoad]) webgl_world)
  ∧ ∃ w' : World,
      load dom_world = Ok This w'
      ∧ _renderer (this w') = Some (mkRenderer dom_renderer (Some This)).
Proof.
  split; [|split; [|split]].
  - apply (proj1 (load_lifecycle detached_world)). reflexivity.
  - apply (proj1 (proj2 (load_lifecycle reluctant_world))); reflexivity.
  - apply (proj1 (proj2 (proj2 (load_lifecycle webgl_world)) renderers
                    eq_refl eq_refl eq_refl)).
    reflexivity.
  - destruct (proj2 (proj2 (proj2 (load_lifecycle dom_world)) renderers
                       eq_refl eq_refl eq_refl) dom_renderer eq_refl)
      as (w' & H & Hr & _).
    exists w'. split; assumption.
Defined.

Lemma load_without_registry_witness :
  load bare_world = Throw TypeError (with_log (fun l => l ++ [HookOnLoad]) bare_world).
Proof.
  apply (load_without_registry bare_world); reflexivity.
Defined.

Lemma setMask_validates_binds_restyles_witness :
  setMask line_mask detached_world = Throw InvalidMaskError detached_world
  ∧ ∃ (w' : World) (m : Geometry),
      setMask polygon_mask detached_world = Ok This w'
      ∧ _mask (this w') = Some m
      ∧ symbol m = polygon_mask_symbol.
Proof.
  split.
  - apply (proj1 (setMask_validates_binds_restyles line_mask detached_world)).
    intros [[H _]|[H|H]]; discriminate H.
  - destruct (proj2 (setMask_validates_binds_restyles polygon_mask detached_world))
      as (w' & m & H & Hm & _ & _ & _ & _ & Hpoly).
    { right. left. reflexivity. }
    exists w', m. split; [exact H|]. split; [exact Hm|].
    apply Hpoly. discriminate.
Defined.

(** C6 as stated fails: on a map whose minimum zoom is -1, a layer without
    a minimum of its own gets 0 from [getMinZoom()], not the map's -1 that a
    missing (unbounded) layer bound would give. *)
Lemma getMinZoom_nil_bound_counterexample :
  getMinZoom negative_map_world = Ok (val 0%Q) negative_map_world
  ∧ ¬ clamps_with_nil_unbounded negative_map_world.
Proof.
  assert (H0 : getMinZoom negative_map_world = Ok (val 0%Q) negative_map_world)
    by reflexivity.
  split; [exact H0|].
  intros (lo & hi & Hlo & _ & Heq & _).
  rewrite H0 in Hlo. injection Hlo as <-.
  vm_compute in Heq. discriminate Heq.
Qed.

Lemma getMinZoom_getMaxZoom_clamp_witness :
  (∃ lo hi : Q,
     getMinZoom zoomed_out_world = Ok (val lo) zoomed_out_world
     ∧ getMaxZoom zoomed_out_world = Ok (val hi) zoomed_out_world
     ∧ (lo == 0)%Q ∧ (hi == 3)%Q)
  ∧ getMinZoom unset_visible_world = Ok null unset_visible_world
  ∧ getMaxZoom unset_visible_world = Ok null unset_visible_world.
Proof.
  split.
  - destruct (proj1 (getMinZoom_getMaxZoom_clamp zoomed_out_world) eq_refl)
      as (lo & hi & Hlo & Hhi & Hl & Hh & _ & _ & Hnil).
    exists lo, hi. split; [exact Hlo|]. split; [exact Hhi|]. split.
    + apply Hnil; [reflexivity|]. vm_compute. discriminate.
    + exact Hh.
  - apply (proj2 (getMinZoom_getMaxZoom_clamp unset_visible_world)). reflexivity.
Defined.





Lemma operations_never_raise_witness :
  (∃ w' : World, run_op OpShow detached_world = Ok tt w')
  ∧ (∃ w' : World, run_op OpLoad detached_world = Ok tt w')
  ∧ (∃ w' : World, run_op OpRemoveMask detached_world = Ok tt w')
  ∧ (∃ w' : World, run_op OpBringToFront detached_world = Ok tt w').
Proof.
  split; [|split; [|split]].
  - apply (operations_never_raise OpShow detached_world). exact I.
  - apply (operations_never_raise OpLoad detached_world). reflexivity.
  - apply (operations_never_raise OpRemoveMask detached_world). exact I.
  - apply (operations_never_raise OpBringToFront detached_world). exact I.
Defined.

(** * Further properties *)

(** ** Worlds through the transformers *)

(** Unfolds the transformers of the equations and splits on their tests. *)
Ltac world_cases :=
  unfold after_fire, tell_renderer, defer, resorted, set_visible, with_zIndex,
    with_mask_stored, with_new_index, with_index_cleared in *;
  simpl;
  repeat match goal with
         | |- context [if ?b then _ else _] => destruct b eqn:?; simpl
         end;
  try discriminate.

Lemma attached_false (w : World) : map (this w) = None → attached w = false.
Proof. unfold attached. by intros ->. Qed.

Lemma attached_true (w : World) : map (this w) = Some TheMap → attached w = true.
Proof. unfold attached. by intros ->. Qed.

Lemma this_after_fire (w : World) (eventType : string) (param : option Payload) :
  this (after_fire w eventType param)
  = if String.eqb eventType "layerload" then set_loaded true (this w) else this w.
Proof. unfold after_fire. by destruct (String.eqb _ _). Qed.

Lemma the_map_after_fire (w : World) (eventType : string) (param : option Payload) :
  the_map (after_fire w eventType param) = the_map w.
Proof. unfold after_fire. by destruct (String.eqb _ _). Qed.

Lemma indexes_after_fire (w : World) (eventType : string) (param : option Payload) :
  indexes (after_fire w eventType param) = indexes w
  ∧ next_index (after_fire w eventType param) = next_index w.
Proof. unfold after_fire. by destruct (String.eqb _ _). Qed.

Lemma log_after_fire (w : World) (eventType : string) (param : option Payload) :
  log (after_fire w eventType param) = log w ++ fired w eventType param.
Proof. unfold after_fire. by destruct (String.eqb _ _). Qed.

Lemma this_tell_renderer (e : Effect) (w : World) : this (tell_renderer e w) = this w.
Proof. unfold tell_renderer. by destruct (has_renderer w). Qed.

Lemma the_map_tell_renderer (e : Effect) (w : World) :
  the_map (tell_renderer e w) = the_map w.
Proof. unfold tell_renderer. by destruct (has_renderer w). Qed.

Lemma log_tell_renderer (e : Effect) (w : World) :
  log (tell_renderer e w) = log w ++ (if has_renderer w then [e] else []).
Proof.
  unfold tell_renderer. destruct (has_renderer w); [done|]. by rewrite app_nil_r.
Qed.

Lemma this_resorted (w : World) : this (resorted w) = this w.
Proof. unfold resorted. by destruct (attached w). Qed.

Lemma the_map_resorted (w : World) :
  the_map (resorted w)
  = if attached w
    then set_layers (sort_by (zIndex_of w) (_layers (the_map w))) (the_map w)
    else the_map w.
Proof. unfold resorted. by destruct (attached w). Qed.

Lemma log_resorted (w : World) :
  log (resorted w) = log w ++ (if attached w then [MapSortLayersByZIndex] else []).
Proof. unfold resorted. destruct (attached w); [done|]. by rewrite app_nil_r. Qed.

(** The layer after [setZIndex(z)]. *)
Lemma this_after_setZIndex (z : Nilable Q) (w : World) :
  this (after_fire (tell_renderer (RendererSetZIndex z) (resorted (with_zIndex z w)))
          "setzindex" (Some (zindex_payload z)))
  = with_options (set_opt_zIndex (if z is val q then Some q else None))
      (set_zIndex z (this w)).
Proof. by rewrite this_after_fire, this_tell_renderer, this_resorted. Qed.

Lemma log_after_setZIndex (z : Nilable Q) (w : World) :
  ∃ rest : list Effect,
    log (after_fire (tell_renderer (RendererSetZIndex z) (resorted (with_zIndex z w)))
           "setzindex" (Some (zindex_payload z)))
    = log w ++ rest.
Proof.
  rewrite log_after_fire, log_tell_renderer, log_resorted.
  eexists. rewrite <- !app_assoc. reflexivity.
Qed.

Arguments after_fire : simpl never.
Arguments tell_renderer : simpl never.
Arguments resorted : simpl never.

(** ** Z-index *)

(** X1. [getZIndex()] after [setZIndex(z)] is [z], or 0 for a nil [z]; the
    layer keeps [z] as given and the [zIndex] option holds it, the key being
    absent for a nil [z]. *)
Theorem setZIndex_then_getZIndex (z : Nilable Q) (w : World) :
  ∃ (w' : World) (r : Q),
    setZIndex z w = Ok This w'
    ∧ getZIndex w' = Ok r w'
    ∧ (r == if z is val q then q else 0)%Q
    ∧ _zIndex (this w') = z
    ∧ zIndex (options (this w')) = (if z is val q then Some q else None).
Proof.
  rewrite setZIndex_eq.
  set (w' := after_fire
               (tell_renderer (RendererSetZIndex z) (resorted (with_zIndex z w)))
               "setzindex" (Some (zindex_payload z))).
  assert (Hthis : this w'
          = with_options (set_opt_zIndex (if z is val q then Some q else None))
              (set_zIndex z (this w))) by apply this_after_setZIndex.
  exists w', (or_zero z). split; [reflexivity|].
  split; [unfold getZIndex, gets, zIndex_of; by rewrite Hthis|].
  rewrite Hthis. split; [|done].
  destruct z as [| |q]; [reflexivity..|apply or_zero_val].
Qed.

(** ** Visibility, continued *)

Lemma options_after_show_branch (e : Effect) (b : bool) (eventType : string)
    (w : World) :
  let w1 := tell_renderer e (set_visible b w) in
  options (this (if has_renderer w && attached w
                 then defer "renderend" (CbFire eventType) w1
                 else after_fire w1 eventType None))
  = set_opt_visible (val b) (options (this w)).
Proof. cbv zeta. world_cases; reflexivity. Qed.

(** X2. [show()] and [hide()] are idempotent: a second call right after
    the first changes nothing and fires nothing, also while the event of the
    first call is still waiting for [renderend].  After [show()] the visible
    option is truthy, after [hide()] it is falsy. *)
Theorem show_hide_idempotent (w : World) :
  (∃ w1 : World,
     show w = Ok This w1 ∧ show w1 = Ok This w1
     ∧ truthy (visible (options (this w1))) = true)
  ∧ (∃ w1 : World,
       hide w = Ok This w1 ∧ hide w1 = Ok This w1
       ∧ truthy (visible (options (this w1))) = false).
Proof.
  split.
  - rewrite show_eq. destruct (truthy (visible (options (this w)))) eqn:Hv.
    + exists w. by rewrite show_eq, Hv.
    + eexists. split; [reflexivity|]. rewrite show_eq.
      by rewrite options_after_show_branch.
  - rewrite hide_eq. destruct (truthy (visible (options (this w)))) eqn:Hv.
    + eexists. split; [reflexivity|]. rewrite hide_eq.
      by rewrite options_after_show_branch.
    + exists w. by rewrite hide_eq, Hv.
Qed.

Lemma isVisible_when_allowed (w : World) :
  opaque_enough (options (this w)) →
  map (this w) = None ∨ zoom_in_range (options (this w)) (map_zoom (the_map w)) →
  isVisible w =
    if isNil (visible (options (this w)))
    then Ok (val true) (set_visible true w)
    else Ok (visible (options (this w))) w.
Proof.
  intros Hop Hz. rewrite isVisible_eq. cbv zeta.
  assert (isNumber (opacity (options (this w)))
          && js_le (opacity (options (this w))) 0 = false) as ->.
  { destruct (opacity (options (this w))) as [| |q] eqn:Hq; simpl; try done.
    apply not_true_iff_false. rewrite Qle_bool_iff.
    apply Qlt_not_le. by apply Hop. }
  assert (attached w
          && ((negb (isNil (maxZoom (options (this w))))
               && js_lt (maxZoom (options (this w))) (map_zoom (the_map w)))
              || (negb (isNil (minZoom (options (this w))))
                  && js_gt (minZoom (options (this w))) (map_zoom (the_map w))))
          = false) as ->.
  { destruct Hz as [Hm|Hin].
    - by rewrite attached_false.
    - apply zoom_in_range_iff in Hin. by rewrite Hin, andb_false_r. }
  reflexivity.
Qed.

Lemma isVisible_by_flag (w : World) :
  opaque_enough (options (this w)) →
  map (this w) = None ∨ zoom_in_range (options (this w)) (map_zoom (the_map w)) →
  ∀ b : bool, visible (options (this w)) = val b → isVisible w = Ok (val b) w.
Proof. intros Hop Hz b Hb. rewrite isVisible_when_allowed by done. by rewrite Hb. Qed.

(** X3. Right after [show()], [isVisible()] is true whenever the opacity
    and the zoom allow it, also while the [show] event still waits for
    [renderend].  Right after [hide()] it is false, unless the visible option
    was nil: then [hide()] has done nothing, and [isVisible()] sets the option
    to true and reports the layer visible. *)
Theorem isVisible_after_show_hide (w : World) :
  opaque_enough (options (this w)) →
  map (this w) = None ∨ zoom_in_range (options (this w)) (map_zoom (the_map w)) →
  (∃ w1 : World, show w = Ok This w1 ∧ isVisible w1 = Ok (val true) w1)
  ∧ (∃ w1 : World,
       hide w = Ok This w1
       ∧ (isNil (visible (options (this w))) = false →
          isVisible w1 = Ok (val false) w1)
       ∧ (isNil (visible (options (this w))) = true →
          w1 = w ∧ isVisible w1 = Ok (val true) (set_visible true w))).
Proof.
  intros Hop Hz. split.
  - rewrite show_eq. destruct (truthy (visible (options (this w)))) eqn:Hv.
    + exists w. split; [done|]. apply isVisible_by_flag; [done..|].
      by destruct (visible (options (this w))) as [| |[]].
    + eexists. split; [reflexivity|]. cbv zeta.
      apply isVisible_by_flag.
      * rewrite options_after_show_branch. exact Hop.
      * rewrite options_after_show_branch.
        destruct Hz as [Hm|Hin]; [left|right].
        -- world_cases; done.
        -- assert (map_zoom (the_map
                     (if has_renderer w && attached w
                      then defer "renderend" (CbFire "show")
                             (tell_renderer RendererShow (set_visible true w))
                      else after_fire
                             (tell_renderer RendererShow (set_visible true w))
                             "show" None))
                   = map_zoom (the_map w)) as ->
             by (world_cases; reflexivity).
           exact Hin.
      * by rewrite options_after_show_branch.
  - rewrite hide_eq. destruct (truthy (visible (options (this w)))) eqn:Hv.
    + eexists. split; [reflexivity|]. cbv zeta. split.
      * intros _. apply isVisible_by_flag.
        -- rewrite options_after_show_branch. exact Hop.
        -- rewrite options_after_show_branch.
           destruct Hz as [Hm|Hin]; [left|right].
           ++ world_cases; done.
           ++ assert (map_zoom (the_map
                        (if has_renderer w && attached w
                         then defer "renderend" (CbFire "hide")
                                (tell_renderer RendererHide (set_visible false w))
                         else after_fire
                                (tell_renderer RendererHide (set_visible false w))
                                "hide" None))
                      = map_zoom (the_map w)) as ->
                by (world_cases; reflexivity).
              exact Hin.
        -- by rewrite options_after_show_branch.
      * intros Hnil. by destruct (visible (options (this w))) as [| |[]].
    + exists w. split; [done|]. split.
      * intros Hnil. apply isVisible_by_flag; [done..|].
        by destruct (visible (options (this w))) as [| |[]].
      * intros Hnil. split; [done|].
        rewrite isVisible_when_allowed by done. by rewrite Hnil.
Qed.

(** X4. [isVisible()] always answers with a boolean, never with nil; it
    calls no collaborator; the only thing it can change is a nil visible
    option, which becomes true; and asking again gives the same answer and
    changes nothing. *)
Theorem isVisible_boolean_and_stable (w : World) :
  ∃ (b : bool) (w1 : World),
    isVisible w = Ok (val b) w1
    ∧ isVisible w1 = Ok (val b) w1
    ∧ (w1 = w
       ∨ (isNil (visible (options (this w))) = true ∧ b = true
          ∧ w1 = set_visible true w)).
Proof.
  rewrite isVisible_eq. cbv zeta.
  destruct (isNumber _ && js_le _ _) eqn:Hop.
  { exists false, w. rewrite isVisible_eq. cbv zeta. rewrite Hop. auto. }
  destruct (attached w && _) eqn:Hz.
  { exists false, w. rewrite isVisible_eq. cbv zeta. rewrite Hop, Hz. auto. }
  destruct (visible (options (this w))) as [| |b] eqn:Hv; simpl.
  1,2: exists true, (set_visible true w); split; [done|]; split; [|by right];
       rewrite isVisible_eq; cbv zeta;
       change (options (this (set_visible true w)))
         with (set_opt_visible (val true) (options (this w)));
       change (attached (set_visible true w)) with (attached w);
       change (the_map (set_visible true w)) with (the_map w);
       simpl; by rewrite Hop, Hz.
  exists b, w. rewrite isVisible_eq. cbv zeta. rewrite Hop, Hz, Hv. auto.
Qed.

(** ** Mask, continued *)

Lemma removeMask_eq (w : World) :
  removeMask w =
    redraw_unless_zooming
      (with_this (with_options (set_opt_mask None)) (with_this (set_mask None) w)).
Proof. unfold removeMask. unfold_monad. reflexivity. Qed.

(** X5. [removeMask()] returns the layer and leaves it without mask and
    without [mask] option, whether or not there was a mask; it asks the
    renderer to redraw exactly when the layer is attached, the map is not
    zooming and the renderer can redraw, and makes no other call.  So after
    [setMask] and [removeMask], [getMask()] is nil again. *)
Theorem removeMask_clears (w : World) :
  (∃ w' : World,
     removeMask w = Ok This w'
     ∧ getMask w' = Ok None w'
     ∧ mask (options (this w')) = None
     ∧ log w' = log w ++ (if can_redraw w then [RendererSetToRedraw] else []))
  ∧ (∀ g : Geometry,
       accepted_kind g →
       ∃ w1 w2 : World,
         setMask g w = Ok This w1
         ∧ is_Some (_mask (this w1))
         ∧ removeMask w1 = Ok This w2
         ∧ getMask w2 = Ok None w2
         ∧ mask (options (this w2)) = None).
Proof.
  assert (Hrm : ∀ w0 : World, ∃ w' : World,
     removeMask w0 = Ok This w'
     ∧ getMask w' = Ok None w'
     ∧ mask (options (this w')) = None
     ∧ log w' = log w0 ++ (if can_redraw w0 then [RendererSetToRedraw] else [])).
  { intros w0. rewrite removeMask_eq, redraw_unless_zooming_eq.
    eexists. split; [reflexivity|].
    change (can_redraw (with_this (with_options (set_opt_mask None))
                          (with_this (set_mask None) w0)))
      with (can_redraw w0).
    unfold getMask, gets.
    destruct (can_redraw w0); simpl; rewrite ?app_nil_r; done. }
  split; [apply Hrm|].
  intros g Hg%mask_accepted_iff.
  rewrite setMask_eq, Hg, redraw_unless_zooming_eq.
  set (w1 := if can_redraw (with_mask_stored g w)
             then with_log (fun l => l ++ [RendererSetToRedraw]) (with_mask_stored g w)
             else with_mask_stored g w).
  destruct (Hrm w1) as (w2 & H2 & Hg2 & Ho2 & _).
  exists w1, w2. split; [done|]. split; [|done].
  unfold w1. destruct (can_redraw _); simpl; eauto.
Qed.

(** ** Attaching and detaching *)

Lemma with_log_nil (w : World) : with_log (fun l => l ++ []) w = w.
Proof. destruct w. unfold with_log. simpl. by rewrite app_nil_r. Qed.

Lemma _switchEvents_eq (to : string) (em : Emitter) (w : World) :
  _switchEvents to em w = Ok tt (with_log (fun l => l ++ switch_calls to em w) w).
Proof.
  unfold _switchEvents, getMap, Map_switch, switch_calls, events_of.
  unfold_monad.
  destruct em; simpl.
  - destruct (getEvents _); destruct (map (this w)) as [[]|]; simpl;
      by rewrite ?with_log_nil.
  - destruct (_renderer (this w)) as [r|]; simpl;
      [destruct (renderer_getEvents _)|]; destruct (map (this w)) as [[]|]; simpl;
      by rewrite ?with_log_nil.
Qed.

Lemma world_ext (w w' : World) :
  this w = this w' → the_map w = the_map w' → indexes w = indexes w' →
  next_index w = next_index w' → log w = log w' → w = w'.
Proof. destruct w, w'. simpl. by intros -> -> -> -> ->. Qed.

Lemma _doRemove_full (w : World) :
  _doRemove w = Ok tt (with_this removed (with_log (fun l => l ++ removal_calls w) w)).
Proof.
  unfold _doRemove, _switchEvents, getMap, Map_switch, Renderer_call,
    removal_calls, switch_calls, events_of, has_renderer.
  unfold_monad. destruct w as [l mp ix nx lg]; simpl.
  destruct (getEvents (constructor l)) as [evs|];
    destruct (map l) as [[]|] eqn:Hm; simpl; rewrite ?Hm; simpl.
  all: destruct (_renderer l) as [r|] eqn:Hr; simpl; rewrite ?Hr; simpl.
  all: try (destruct (renderer_getEvents (clazz r)) as [evs'|]; simpl;
            rewrite ?Hm, ?Hr; simpl).
  all: rewrite ?Hr; unfold_monad; simpl.
  all: f_equal; apply world_ext; simpl; try reflexivity.
  all: try (destruct l; simpl in *; subst; reflexivity).
  all: rewrite <- ?app_assoc; reflexivity.
Qed.

(** X6. [_doRemove()] never throws.  It leaves the layer detached, without
    renderer, without dedicated collision index and not loaded, and keeps its
    class, id, z-index, options and mask.  It calls [onRemove()], and
    [remove()] on the renderer exactly when there was one; it does not touch
    the map's list of layers nor any collision index.  A dedicated index
    requested after the removal is a new instance; the old one is not reused. *)
Theorem _doRemove_detaches_and_keeps_configuration (w : World) :
  ∃ w' : World,
    _doRemove w = Ok tt w'
    ∧ map (this w') = None
    ∧ _renderer (this w') = None
    ∧ _collisionIndex (this w') = None
    ∧ _loaded (this w') = false
    ∧ (constructor (this w'), _id (this w'), _zIndex (this w'),
       options (this w'), _mask (this w'))
      = (constructor (this w), _id (this w), _zIndex (this w),
         options (this w), _mask (this w))
    ∧ the_map w' = the_map w
    ∧ indexes w' = indexes w
    ∧ (∃ rest : list Effect,
         log w' = log w ++ rest
         ∧ HookOnRemove ∈ rest
         ∧ (RendererRemove ∈ rest ↔ is_Some (_renderer (this w))))
    ∧ (∀ r : nat,
         collisionScope (options (this w)) = val "layer" →
         _collisionIndex (this w) = Some r →
         (r < next_index w)%nat →
         ∃ (r' : nat) (w2 : World),
           getCollisionIndex w' = Ok (Some r') w2
           ∧ r' ≠ r
           ∧ indexes w2 !! r = indexes w !! r).
Proof.
  rewrite _doRemove_full. eexists. split; [reflexivity|].
  destruct w as [l mp ix nx lg]. simpl.
  do 7 (split; [reflexivity|]). split.
  - exists (removal_calls (mkWorld l mp ix nx lg)). split; [reflexivity|].
    unfold removal_calls, has_renderer, switch_calls, events_of. simpl.
    destruct (getEvents (constructor l)), (map l), (_renderer l) as [r|]; simpl;
      try destruct (renderer_getEvents (clazz r)); simpl;
      rewrite ?elem_of_cons, ?elem_of_nil; split; auto 10;
      split; eauto; intros H; exfalso;
      first [ by destruct H as [? [=]] | intuition discriminate ].
  - intros r Hs Hr Hlt.
    rewrite getCollisionIndex_eq.
    assert (scope_is_layer (mkWorld l mp ix nx lg) = true) as Hs'
      by (by apply scope_is_layer_iff).
    unfold scope_is_layer, own_index, with_new_index in *. simpl in *.
    rewrite Hs'. exists nx. eexists. split; [reflexivity|].
    split; [lia|]. simpl. apply lookup_insert_ne. lia.
Qed.

Lemma _bindMap_eq (z : Nilable Q) (w : World) :
  _bindMap (Some TheMap) z w =
    Ok tt (after_fire
             (with_log (fun l => l ++ switch_calls "on" EmLayer (bound z w) ++ [HookOnAdd])
                (bound z w))
             "add" None).
Proof.
  unfold _bindMap.
  erewrite bind_Ok by reflexivity.
  assert (Hz : when (negb (isNil z)) (setZIndex z;; mret tt)
                 (with_this (set_map (Some TheMap)) w) = Ok tt (bound z w)).
  { unfold bound. destruct (isNil z); [reflexivity|].
    change (when (negb false) (setZIndex z;; mret tt))
      with (setZIndex z ≫= (fun _ => mret tt : M unit)).
    erewrite bind_Ok by apply setZIndex_eq. reflexivity. }
  erewrite bind_Ok by exact Hz.
  erewrite bind_Ok by apply _switchEvents_eq.
  erewrite bind_Ok by reflexivity.
  erewrite bind_Ok by apply fire_eq.
  unfold mret, M_ret, ret. do 2 f_equal.
  generalize (bound z w). intros [l mp ix nx lg].
  unfold with_log. simpl. by rewrite <- app_assoc.
Qed.

Lemma bound_fields (z : Nilable Q) (w : World) :
  map (this (bound z w)) = Some TheMap
  ∧ _zIndex (this (bound z w)) = (if isNil z then _zIndex (this w) else z)
  ∧ ∃ rest : list Effect, log (bound z w) = log w ++ rest.
Proof.
  unfold bound. destruct z as [| |q]; simpl isNil; cbv iota.
  1,2: repeat split; exists []; simpl; by rewrite app_nil_r.
  rewrite this_after_setZIndex. repeat split.
  destruct (log_after_setZIndex (val q) (with_this (set_map (Some TheMap)) w))
    as [rest Hrest].
  exists rest. rewrite Hrest. reflexivity.
Qed.

(** X7. [_bindMap] without a map does nothing.  With a map it never
    throws and leaves the layer attached; a nil z-index leaves the layer's
    z-index and the map's list as they were, another one is set and the map's
    list is then ordered by z-index; the last calls are the [onAdd()] hook and
    the [add] event, which, the layer being attached by then, goes to the
    map's aggregator before the local subscribers. *)
Theorem _bindMap_attaches (z : Nilable Q) (w : World) :
  _bindMap None z w = Ok tt w
  ∧ ∃ w' : World,
      _bindMap (Some TheMap) z w = Ok tt w'
      ∧ map (this w') = Some TheMap
      ∧ (if isNil z
         then _zIndex (this w') = _zIndex (this w)
              ∧ _layers (the_map w') = _layers (the_map w)
         else _zIndex (this w') = z
              ∧ z_ordered (zIndex_of w') (_layers (the_map w')))
      ∧ ∃ rest : list Effect,
          log w' = log w ++ rest
                   ++ [HookOnAdd; MapOnLayerEvent (stamp "add" ∅); Dispatch "add" None].
Proof.
  split; [reflexivity|].
  rewrite _bindMap_eq. eexists. split; [reflexivity|].
  destruct (bound_fields z w) as (Hm & Hz & rest & Hlog).
  rewrite this_after_fire, the_map_after_fire, log_after_fire.
  change (String.eqb "add" "layerload") with false. cbv iota.
  change (this (with_log ?f ?w0)) with (this w0).
  change (the_map (with_log ?f ?w0)) with (the_map w0).
  split; [exact Hm|]. split.
  - rewrite Hz. destruct (isNil z) eqn:Hnil.
    { split; [done|]. unfold bound. by rewrite Hnil. }
    split; [done|].
    assert (Hord : z_ordered (zIndex_of (bound z w)) (layer_list (bound z w))).
    { unfold bound. rewrite Hnil.
      apply (setZIndex_orders z (with_this (set_map (Some TheMap)) w));
        [reflexivity|apply setZIndex_eq]. }
    unfold layer_list in Hord. rewrite (attached_true _ Hm) in Hord.
    eapply z_ordered_ext; [|exact Hord].
    intros [|s]; [|reflexivity]. unfold zIndex_of.
    by rewrite this_after_fire.
  - exists (rest ++ switch_calls "on" EmLayer (bound z w)).
    unfold fired, mirrored, dispatched.
    change (attached (with_log ?f ?w0)) with (attached w0).
    rewrite (attached_true _ Hm).
    change (is_show_or_hide "add") with false. cbv iota.
    change (log (with_log ?f ?w0)) with (f (log w0)). cbv beta.
    rewrite Hlog, <- !app_assoc. reflexivity.
Qed.

(** ** Construction *)

Lemma new_Layer_eq (cls : LayerClass) (id : Nilable string) (opts : option Options)
    (w : World) :
  new_Layer cls id opts w =
    match constructor_mask opts with
    | None =>
        Ok This (with_log (fun l => l ++ [ProxyOptions]) (configured cls id opts w))
    | Some g =>
        match setMask g (configured cls id opts w) with
        | Ok _ w' => Ok This (with_log (fun l => l ++ [ProxyOptions]) w')
        | Throw e w' => Throw e w'
        | OutOfFuel => OutOfFuel
        end
    end.
Proof.
  unfold new_Layer, constructor_mask, configured, named.
  erewrite bind_Ok by reflexivity.
  erewrite bind_Ok by apply setId_eq.
  change (_id (this (with_this (fun _ => Class_new cls opts) w))) with (@undefined string).
  destruct opts as [o|]; simpl.
  - unfold mbind at 1, M_bind at 1, bind at 1.
    unfold mbind at 1, M_bind at 1, bind at 1.
    rewrite setZIndex_eq.
    destruct (mask o) as [j|]; simpl.
    + unfold mbind, M_bind, bind, mret, M_ret, ret, emit, modify.
      by destruct (setMask _ _) as [[] w'|e w'|].
    + reflexivity.
  - reflexivity.
Qed.

Lemma this_configured (cls : LayerClass) (id : Nilable string)
    (opts : option Options) (w : World) :
  this (configured cls id opts w)
  = match opts with
    | None => set_id id (Class_new cls None)
    | Some o =>
        with_options (set_opt_zIndex (zIndex o))
          (set_zIndex (constructor_zIndex opts) (set_id id (Class_new cls opts)))
    end.
Proof.
  unfold configured, named. destruct opts as [o|].
  - cbv zeta. rewrite this_after_setZIndex, this_after_fire. simpl.
    by destruct (zIndex o).
  - by rewrite this_after_fire.
Qed.

Lemma the_map_configured (cls : LayerClass) (id : Nilable string)
    (opts : option Options) (w : World) :
  the_map (configured cls id opts w) = the_map w.
Proof.
  unfold configured, named. destruct opts as [o|].
  - cbv zeta. rewrite the_map_after_fire, the_map_tell_renderer, the_map_resorted.
    rewrite attached_false.
    + cbv iota.
      change (the_map (with_zIndex ?z ?w0)) with (the_map w0).
      unfold named. by rewrite the_map_after_fire.
    + change (this (with_zIndex ?z ?w0))
        with (with_options (set_opt_zIndex (if z is val q then Some q else None))
                (set_zIndex z (this w0))).
      unfold named. by rewrite this_after_fire.
  - by rewrite the_map_after_fire.
Qed.

Lemma can_redraw_detached (w : World) : map (this w) = None → can_redraw w = false.
Proof. intros H. unfold can_redraw. by rewrite attached_false. Qed.

(** X8. The constructor throws exactly when its options carry a mask of a
    kind that [setMask] refuses, and then with the mask error.  Otherwise it
    returns a layer that is detached, not loaded, without renderer and without
    collision index, with the id as given, with the z-index of the options
    (unset when there are no options or no z-index in them) and with the
    restyled mask of the options, if any; the map is untouched and
    [proxyOptions()] is the last call. *)
Theorem new_Layer_outcome (cls : LayerClass) (id : Nilable string)
    (opts : option Options) (w : World) :
  (∀ g : Geometry,
     constructor_mask opts = Some g → ¬ accepted_kind g →
     ∃ w' : World,
       new_Layer cls id opts w = Throw InvalidMaskError w'
       ∧ _id (this w') = id ∧ _mask (this w') = None)
  ∧ ((∀ g : Geometry, constructor_mask opts = Some g → accepted_kind g) →
     ∃ w' : World,
       new_Layer cls id opts w = Ok This w'
       ∧ map (this w') = None
       ∧ _renderer (this w') = None
       ∧ _collisionIndex (this w') = None
       ∧ _loaded (this w') = false
       ∧ _id (this w') = id
       ∧ _zIndex (this w') = constructor_zIndex opts
       ∧ _mask (this w') = restyled <$> constructor_mask opts
       ∧ the_map w' = the_map w
       ∧ last (log w') = Some ProxyOptions).
Proof.
  rewrite new_Layer_eq.
  pose proof (this_configured cls id opts w) as Hthis.
  pose proof (the_map_configured cls id opts w) as Hmap.
  split.
  - intros g Hg Hbad. rewrite Hg, setMask_eq.
    assert (mask_accepted g = false) as ->.
    { apply not_true_is_false. by rewrite mask_accepted_iff. }
    eexists. split; [reflexivity|]. rewrite Hthis.
    by destruct opts as [o|].
  - intros Hok. destruct (constructor_mask opts) as [g|] eqn:Hg.
    + rewrite setMask_eq.
      assert (mask_accepted g = true) as -> by (apply mask_accepted_iff; auto).
      rewrite redraw_unless_zooming_eq, can_redraw_detached.
      2:{ unfold with_mask_stored. simpl. rewrite Hthis. by destruct opts. }
      eexists. split; [reflexivity|].
      unfold with_mask_stored, with_log. simpl. rewrite Hthis, Hmap.
      destruct opts as [o|]; simpl; rewrite ?last_snoc; done.
    + eexists. split; [reflexivity|].
      unfold with_log. simpl. rewrite Hthis, Hmap.
      destruct opts as [o|]; simpl; rewrite ?last_snoc; done.
Qed.

(** ** Z-order, continued *)

(** The first layer of an ordered list has the least z-index. *)
Lemma head_least (key : LayerRef → Q) (l : list LayerRef) (bottom : LayerRef) :
  z_ordered key l → head l = Some bottom →
  ∀ y : LayerRef, y ∈ l → (key bottom <= key y)%Q.
Proof.
  unfold z_ordered. intros Hl Hb y Hy.
  destruct l as [|x l]; [done|]. injection Hb as ->.
  apply StronglySorted_inv in Hl as [_ Hx].
  apply elem_of_cons in Hy as [->|Hy]; [apply Qle_refl|].
  rewrite Forall_forall in Hx. by apply Hx.
Qed.

(** A layer whose z-index is below that of every sibling ends up first. *)
Lemma sort_by_head_This (key : LayerRef → Q) (l : list LayerRef) :
  This ∈ l →
  (∀ s : Sibling, Other s ∈ l → (key This < key (Other s))%Q) →
  head (sort_by key l) = Some This.
Proof.
  intros Hin Hlt.
  destruct (head (sort_by key l)) as [t|] eqn:Hhead.
  - destruct t as [|s]; [done|]. exfalso.
    assert (Hs : Other s ∈ l).
    { rewrite <- (sort_by_perm key l). by apply head_Some_elem_of. }
    assert (Hle : (key (Other s) <= key This)%Q).
    { apply (head_least key (sort_by key l)); [apply sort_by_ordered|done|].
      by rewrite sort_by_perm. }
    apply Hlt in Hs. by apply Qlt_not_le in Hs.
  - apply head_None in Hhead.
    rewrite <- (sort_by_perm key l), Hhead in Hin. by apply not_elem_of_nil in Hin.
Qed.

(** X9. On a layer that is detached, or attached to a map whose layer list
    is ordered by z-index and holds the layer, [bringToBack()] returns the
    layer.  It changes nothing on an empty list, on a list of one, and when
    the layer is already first, and then a second call changes nothing
    either.  Otherwise it sets the z-index to the difference, as the number
    arithmetic gives it, of the z-index of the first layer and 1; whenever
    that difference is less than the z-index of the first layer, the layer
    is the first of the list after the map's re-sort and a second
    [bringToBack()] right after changes nothing.  The difference is less for
    every integer z-index above -2^53 and up to 2^53. *)
Theorem bringToBack_idempotent (w : World) :
  z_ordered (zIndex_of w) (layer_list w) →
  (map (this w) = Some TheMap → This ∈ _layers (the_map w)) →
  ∃ w1 : World,
    bringToBack w = Ok This w1
    ∧ (layer_list w = [] ∨ length (layer_list w) = 1%nat
       ∨ head (layer_list w) = Some This →
       w1 = w ∧ bringToBack w1 = Ok This w1)
    ∧ (∀ s : Sibling,
         head (layer_list w) = Some (Other s) → length (layer_list w) ≠ 1%nat →
         _zIndex (this w1) = val (js_sub (zIndex_of w (Other s)) 1)
         ∧ ((js_sub (zIndex_of w (Other s)) 1 < zIndex_of w (Other s))%Q →
            head (layer_list w1) = Some This
            ∧ bringToBack w1 = Ok This w1)
         ∧ (∀ k : Z,
              zIndex_of w (Other s) = inject_Z k →
              (- 2 ^ 53 < k <= 2 ^ 53)%Z →
              (js_sub (zIndex_of w (Other s)) 1 < zIndex_of w (Other s))%Q)).
Proof.
  intros Hord Hin. rewrite bringToBack_eq.
  destruct (head (layer_list w)) as [bottom|] eqn:Hhead.
  - destruct (Nat.eqb (length (layer_list w)) 1) eqn:Hlen.
    { exists w. rewrite bringToBack_eq, Hhead, Hlen.
      apply Nat.eqb_eq in Hlen. cbn [orb]. repeat split; try done. }
    destruct bottom as [|s].
    { exists w. rewrite bringToBack_eq, Hhead, Hlen. cbn [orb is_this].
      repeat split; try done. }
    apply Nat.eqb_neq in Hlen.
    cbn [orb is_this].
    assert (Hm : map (this w) = Some TheMap).
    { unfold layer_list, attached in Hhead.
      destruct (map (this w)) as [[]|]; [done|]. simpl in Hhead. done. }
    assert (Hll : layer_list w = _layers (the_map w)).
    { unfold layer_list. by rewrite attached_true. }
    set (z := val (js_sub (zIndex_of w (Other s)) 1)).
    set (w1 := after_fire (tell_renderer (RendererSetZIndex z) (resorted (with_zIndex z w)))
                 "setzindex" (Some (zindex_payload z))).
    exists w1. split; [by rewrite setZIndex_eq|].
    split.
    + intros [H|[H|H]]; [by rewrite H in Hhead|done..].
    + intros s' [= <-] _. split; [|split].
      * unfold w1. by rewrite this_after_setZIndex.
      * intros Hlt.
        assert (Htop : head (layer_list w1) = Some This).
        { unfold w1. rewrite layer_list_after_setZIndex by done.
          apply sort_by_head_This; [by apply Hin|].
          intros s' Hs'.
          assert (Hle : (zIndex_of w (Other s) <= zIndex_of w (Other s'))%Q).
          { apply (head_least _ (layer_list w)); [done..|by rewrite Hll]. }
          change (or_zero (val (js_sub (zIndex_of w (Other s)) 1))
                  < zIndex_of w (Other s'))%Q.
          rewrite or_zero_val. eapply Qlt_le_trans; [exact Hlt|exact Hle]. }
        split; [exact Htop|].
        rewrite bringToBack_eq, Htop. cbn [is_this]. by rewrite orb_true_r.
      * intros k -> Hk. by apply js_sub_one_less.
  - exists w. rewrite bringToBack_eq, Hhead.
    repeat split; try done.
Qed.

(** Where the difference is not less: above a sibling whose z-index is
    -2^53, [bringToBack()] leaves the layer tied with the sibling and above
    it, and a second call sets the z-index once more. *)
Example bringToBack_ties :
  ∃ w1 w2 : World,
    bringToBack floor_world = Ok This w1
    ∧ (∃ z : Q, _zIndex (this w1) = val z ∧ (z == -9007199254740992)%Q)
    ∧ head (layer_list w1) = Some (Other (mkSibling 1 (val (-9007199254740992)%Q)))
    ∧ bringToBack w1 = Ok This w2
    ∧ length (log w2) ≠ length (log w1).
Proof.
  eexists _, _. split; [vm_compute; reflexivity|].
  split; [eexists; split; [reflexivity|vm_compute; reflexivity]|].
  split; [vm_compute; reflexivity|].
  split; [vm_compute; reflexivity|].
  vm_compute. discriminate.
Qed.

(** ** A detached layer and the map *)

Lemma off_the_map_refl (w : World) : map (this w) = None → off_the_map w w.
Proof.
  intros Hm. repeat split; try done. exists []. by rewrite app_nil_r.
Qed.

Lemma off_the_map_trans (w1 w2 w3 : World) :
  off_the_map w1 w2 → off_the_map w2 w3 → off_the_map w1 w3.
Proof.
  intros (Hm1 & Hmap1 & Hr1 & rest1 & Hl1 & Hf1) (Hm2 & Hmap2 & Hr2 & rest2 & Hl2 & Hf2).
  split; [done|]. split; [congruence|]. split; [auto|].
  exists (rest1 ++ rest2). split; [by rewrite Hl2, Hl1, app_assoc|].
  by apply Forall_app.
Qed.

Lemma stays_off_bind_on {A B : Type} (m : M A) (k : A -> M B) (P : A → Prop) :
  stays_off m →
  (∀ w a w', map (this w) = None → m w = Ok a w' → P a) →
  (∀ a, P a → stays_off (k a)) →
  stays_off (m ≫= k).
Proof.
  intros Hm HP Hk w Hw. unfold mbind, M_bind, bind.
  specialize (Hm w Hw). specialize (HP w).
  destruct (m w) as [a w1|e w1|]; [|done..].
  specialize (Hk a (HP a w1 Hw eq_refl) w1 (proj1 Hm)).
  destruct (k a w1) as [b w2|e w2|]; [| |done];
    by apply off_the_map_trans with w1.
Qed.

Lemma stays_off_bind {A B : Type} (m : M A) (k : A -> M B) :
  stays_off m → (∀ a, stays_off (k a)) → stays_off (m ≫= k).
Proof.
  intros Hm Hk. apply (stays_off_bind_on m k (fun _ => True)); auto.
Qed.

Lemma stays_off_ret {A : Type} (a : A) : stays_off (mret a : M A).
Proof. intros w Hw. by apply off_the_map_refl. Qed.

Lemma stays_off_throw {A : Type} (e : Exn) : stays_off (throw e : M A).
Proof. intros w Hw. by apply off_the_map_refl. Qed.

Lemma stays_off_gets {A : Type} (f : World -> A) : stays_off (gets f).
Proof. intros w Hw. by apply off_the_map_refl. Qed.

Lemma stays_off_modify (f : World -> World) :
  (∀ w, map (this w) = None → off_the_map w (f w)) → stays_off (modify f).
Proof. intros Hf w Hw. by apply Hf. Qed.

Lemma stays_off_emit (e : Effect) : map_call e = false → stays_off (emit e).
Proof.
  intros He. apply stays_off_modify. intros w Hw.
  repeat split; try done. exists [e]. split; [done|]. by repeat constructor.
Qed.

Lemma stays_off_when (b : bool) (m : M unit) : stays_off m → stays_off (when b m).
Proof. destruct b; [done|]. intros _. apply stays_off_ret. Qed.

Lemma stays_off_fire (eventType : string) (param : option Payload) :
  stays_off (fire eventType param).
Proof.
  intros w Hw. rewrite fire_eq. unfold off_the_map.
  rewrite this_after_fire, the_map_after_fire, log_after_fire.
  split; [by destruct (String.eqb _ _)|]. split; [done|].
  split; [by destruct (String.eqb _ _)|].
  eexists. split; [reflexivity|].
  unfold fired, mirrored, dispatched. rewrite (attached_false _ Hw).
  destruct (is_show_or_hide eventType); by repeat constructor.
Qed.

(** On a detached layer [getMap()] and [this.map] are nil and the layer
    list is empty. *)
Lemma stays_off_bind_map {B : Type} (k : option MapRef -> M B) :
  stays_off (k None) → stays_off (gets (fun w => map (this w)) ≫= k).
Proof.
  intros Hk. apply (stays_off_bind_on _ k (fun a => a = None)).
  - apply stays_off_gets.
  - intros w a w' Hw [= <- <-]. exact Hw.
  - by intros a ->.
Qed.

Lemma stays_off_bind_getMap {B : Type} (k : option MapRef -> M B) :
  stays_off (k None) → stays_off (getMap ≫= k).
Proof.
  intros Hk. apply (stays_off_bind_on _ k (fun a => a = None)).
  - unfold getMap. apply stays_off_bind; [apply stays_off_gets|].
    intros [m|]; apply stays_off_ret.
  - intros w a w' Hw. unfold getMap, mbind, M_bind, bind, gets. rewrite Hw.
    by intros [= <- <-].
  - by intros a ->.
Qed.

Lemma stays_off_bind_getLayerList {B : Type} (k : list LayerRef -> M B) :
  stays_off (k []) → stays_off (_getLayerList ≫= k).
Proof.
  intros Hk. apply (stays_off_bind_on _ k (fun a => a = [])).
  - intros w Hw. rewrite _getLayerList_eq. by apply off_the_map_refl.
  - intros w a w' Hw. rewrite _getLayerList_eq. unfold layer_list.
    rewrite (attached_false _ Hw). by intros [= <- <-].
  - by intros a ->.
Qed.

Lemma stays_off_CollisionIndex_new : stays_off CollisionIndex_new.
Proof.
  intros w Hw. unfold CollisionIndex_new.
  repeat split; try done. exists []. by rewrite app_nil_r.
Qed.

Create HintDb stays_off_db.
#[local] Hint Resolve stays_off_ret stays_off_throw stays_off_gets stays_off_fire
  stays_off_CollisionIndex_new : stays_off_db.

(** A field update that keeps the layer detached and adds no renderer. *)
Ltac stays_off_update :=
  let w := fresh "w" in
  let Hw := fresh "Hw" in
  intros w Hw; destruct w as [? ? ? ? ?];
  split; [first [exact Hw | reflexivity]|];
  split; [reflexivity|];
  split; [first [done | intros _; reflexivity]|];
  exists []; split; [symmetry; apply app_nil_r | constructor].

Ltac stays_off_step :=
  cbv beta iota;
  lazymatch goal with
  | |- stays_off (getMap ≫= _) => apply stays_off_bind_getMap
  | |- stays_off (_getLayerList ≫= _) => apply stays_off_bind_getLayerList
  | |- stays_off (gets (fun w => map (this w)) ≫= _) => apply stays_off_bind_map
  | |- stays_off (_ ≫= _) => apply stays_off_bind; [|intros ?]
  | |- stays_off (when _ _) => apply stays_off_when
  | |- stays_off (modify _) => apply stays_off_modify; stays_off_update
  | |- stays_off (emit _) => apply stays_off_emit; reflexivity
  | |- stays_off (match ?x with _ => _ end) =>
      first [change x with true | change x with false | destruct x]
  | |- stays_off ((match ?x with _ => _ end) _) => destruct x
  | |- stays_off (let _ := _ in _) => cbv zeta
  | |- _ => solve [auto with stays_off_db]
  end.

Lemma stays_off_setZIndex (z : Nilable Q) : stays_off (setZIndex z).
Proof.
  unfold setZIndex, Map_sortLayersByZIndex, Renderer_call.
  repeat stays_off_step.
Qed.

(** X10. Whatever is done to a detached layer, short of binding it to a
    map, the call ends (by a return or a throw) with the layer still
    detached, the map untouched and not called, and no renderer created. *)
Theorem detached_layer_stays_off_the_map (op : Op) (w : World) :
  map (this w) = None →
  attaches op = false →
  match run_op op w with
  | Ok _ w' | Throw _ w' => off_the_map w w'
  | OutOfFuel => False
  end.
Proof.
  intros Hw Ha. revert w Hw. change (stays_off (run_op op)).
  pose proof stays_off_setZIndex.
  destruct op as [| | | | | | | | | | | | | | | | | | | | | | | | | | |[mp|] z| | | |];
    try discriminate Ha; clear Ha; simpl.
  all: unfold load, getId, setId, getZIndex, getMinZoom, getMaxZoom, getOpacity,
         setOpacity, config_opacity, isCanvasRender, getProjection, bringToFront,
         bringToBack, show, hide, isVisible, remove, getMask, setMask, removeMask,
         redraw_unless_zooming, isLoaded, getCollisionIndex, clearCollisionIndex,
         CollisionIndex_clear, onConfig, getRenderer, _getRenderer, _bindMap,
         _doRemove, _switchEvents, _getMask2DExtent, Map_get, Map_once,
         Map_switch, Map_removeLayer, Map_sortLayersByZIndex, Renderer_call,
         Renderer_call_optional.
  all: repeat stays_off_step.
Qed.

(** ** Invariants of the layer's state *)

Section Invariant.
Variable I : World -> Prop.

Lemma invariant_bind {A B : Type} (m : M A) (k : A -> M B) :
  invariant I m → (∀ a, invariant I (k a)) → invariant I (m ≫= k).
Proof.
  intros Hm Hk w Hw. unfold mbind, M_bind, bind.
  specialize (Hm w Hw). destruct (m w) as [a w1|e w1|]; [|done..].
  exact (Hk a w1 Hm).
Qed.

Lemma invariant_ret {A : Type} (a : A) : invariant I (mret a : M A).
Proof. by intros w Hw. Qed.

Lemma invariant_throw {A : Type} (e : Exn) : invariant I (throw e : M A).
Proof. by intros w Hw. Qed.

Lemma invariant_gets {A : Type} (f : World -> A) : invariant I (gets f).
Proof. by intros w Hw. Qed.

Lemma invariant_modify (f : World -> World) :
  (∀ w, I w → I (f w)) → invariant I (modify f).
Proof. intros Hf w Hw. by apply Hf. Qed.

Lemma invariant_when (b : bool) (m : M unit) :
  invariant I m → invariant I (when b m).
Proof. destruct b; [done|]. intros _. apply invariant_ret. Qed.

Lemma invariant_fire (eventType : string) (param : option Payload) :
  (∀ w, I w → I (after_fire w eventType param)) →
  invariant I (fire eventType param).
Proof. intros Hf w Hw. rewrite fire_eq. by apply Hf. Qed.

Lemma invariant_forEach {A : Type} (l : list A) (f : A -> M unit) :
  (∀ a, invariant I (f a)) → invariant I (forEach l f).
Proof.
  intros Hf. induction l as [|a l IH]; simpl.
  - apply invariant_ret.
  - apply invariant_bind; [apply Hf|]. intros _. exact IH.
Qed.

End Invariant.

Create HintDb invariant_db.
#[local] Hint Resolve invariant_ret invariant_throw invariant_gets : invariant_db.

(** A field update and the invariants, which read [map], [_renderer] and
    [_loaded] only. *)
Ltac invariant_update :=
  intros [[? ? ? ? ? ? ? ? ?] ? ? ? ?];
  unfold renderer_on_a_map, on_a_map, not_loaded; simpl;
  first [ exact (fun H => H) | done | (intros _ H; by destruct (is_Some_None H)) ].

Ltac invariant_after_fire :=
  let w := fresh "w" in
  intros w;
  unfold renderer_on_a_map, on_a_map, not_loaded;
  rewrite this_after_fire;
  first [ exact (fun H => H) | by destruct (String.eqb _ _) ].

Ltac invariant_step :=
  cbv beta iota;
  lazymatch goal with
  | |- invariant _ (_ ≫= _) => apply invariant_bind; [|intros ?]
  | |- invariant _ (when _ _) => apply invariant_when
  | |- invariant _ (modify _) => apply invariant_modify; invariant_update
  | |- invariant _ (emit _) => apply invariant_modify; invariant_update
  | |- invariant _ (fire _ _) => apply invariant_fire; invariant_after_fire
  | |- invariant _ (match ?x with _ => _ end) => destruct x
  | |- invariant _ ((match ?x with _ => _ end) _) => destruct x
  | |- invariant _ (let _ := _ in _) => cbv zeta
  | |- _ => solve [auto with invariant_db]
  end.

Ltac invariant_unfold :=
  unfold load, _initRenderer, getId, setId, setZIndex, getZIndex, getMinZoom,
    getMaxZoom, getOpacity, setOpacity, config_opacity, isCanvasRender,
    getProjection, bringToFront, bringToBack, show, hide, isVisible, remove,
    getMask, setMask, removeMask, redraw_unless_zooming, isLoaded,
    getCollisionIndex, clearCollisionIndex, CollisionIndex_clear, onConfig,
    getRenderer, _getRenderer, _bindMap, _switchEvents, _getLayerList,
    _getMask2DExtent, getMap, Map_get, Map_once, Map_switch,
    Map_sortLayersByZIndex, Renderer_call, Renderer_call_optional.

Lemma invariant_CollisionIndex_new (I : World -> Prop) :
  (∀ w, I w → I (set_indexes (<[next_index w := []]> (indexes w)) (S (next_index w)) w)) →
  invariant I CollisionIndex_new.
Proof. intros H w Hw. by apply H. Qed.

Lemma renderer_on_a_map_doRemove : invariant renderer_on_a_map _doRemove.
Proof.
  intros w _. rewrite _doRemove_full. unfold renderer_on_a_map. simpl.
  intros H. by destruct (is_Some_None H).
Qed.

Lemma on_a_map_load : invariant on_a_map load.
Proof.
  invariant_unfold. repeat invariant_step.
Qed.

Lemma renderer_on_a_map_load : invariant renderer_on_a_map load.
Proof.
  intros w Hw. destruct (map (this w)) as [m|] eqn:Hm.
  - assert (on_a_map w) as Ho by (unfold on_a_map; rewrite Hm; eauto).
    pose proof (on_a_map_load w Ho) as H.
    destruct (load w) as [a w'|e w'|]; [| |done]; by intros _.
  - unfold load, getMap, mbind, M_bind, bind, gets. rewrite Hm. exact Hw.
Qed.

Lemma not_loaded_doRemove : invariant not_loaded _doRemove.
Proof. intros w _. by rewrite _doRemove_full. Qed.

Lemma renderer_on_a_map_run_op (op : Op) : invariant renderer_on_a_map (run_op op).
Proof.
  pose proof renderer_on_a_map_doRemove. pose proof renderer_on_a_map_load.
  destruct op; simpl.
  all: try (apply invariant_bind; [assumption|intros ?; apply invariant_ret]).
  all: try assumption.
  all: unfold remove, Map_removeLayer; do 2 invariant_unfold.
  all: repeat invariant_step.
  all: apply invariant_CollisionIndex_new; invariant_update.
Qed.

Lemma not_loaded_run_op (op : Op) :
  fires_layerload op = false → invariant not_loaded (run_op op).
Proof.
  intros Hop. pose proof not_loaded_doRemove.
  destruct op; simpl.
  all: try assumption.
  all: unfold remove, Map_removeLayer; do 2 invariant_unfold.
  all: repeat invariant_step.
  all: try (apply invariant_CollisionIndex_new; invariant_update).
  apply invariant_fire. intros w. unfold not_loaded. rewrite this_after_fire.
  simpl in Hop. by rewrite Hop.
Qed.

Lemma invariant_final {A : Type} (I : World -> Prop) (m : M A) (w : World) :
  invariant I m → I w → ∃ w' : World, final_world (m w) = Some w' ∧ I w'.
Proof.
  intros Hm Hw. specialize (Hm w Hw).
  destruct (m w) as [a w'|e w'|]; [| |done]; by exists w'.
Qed.

(** The constructor establishes what holds of a fresh object and the rest
    of the constructor keeps. *)
Lemma invariant_new_Layer (I : World -> Prop) (cls : LayerClass)
    (id : Nilable string) (opts : option Options) {A : Type} (k : M A) :
  (∀ w, I (with_this (fun _ => Class_new cls opts) w)) →
  (∀ z, invariant I (setZIndex z)) →
  (∀ g, invariant I (setMask g)) →
  (∀ w p, I w → I (after_fire w "idchange" p)) →
  (∀ w, I w → I (with_this (set_id id) w)) →
  (∀ w f, I w → I (with_log f w)) →
  invariant I k →
  ∀ w : World, ∃ w' : World,
    final_world ((new_Layer cls id opts;; k) w) = Some w' ∧ I w'.
Proof.
  intros Hnew Hz Hg Hfire Hid Hlog Hk w.
  change ((new_Layer cls id opts;; k) w)
    with (((setId id;;
            (if opts is Some o then
               setZIndex (if zIndex o is Some q then val q else undefined);;
               (if mask o is Some j then setMask (Geometry_fromJSON j);; mret tt
                else mret tt)
             else mret tt);;
            emit ProxyOptions;;
            mret This);; k) (with_this (fun _ => Class_new cls opts) w)).
  apply invariant_final; [|apply Hnew].
  apply invariant_bind; [|intros _; exact Hk].
  apply invariant_bind.
  { intros w1 Hw1. rewrite setId_eq. by apply Hfire, Hid. }
  intros _. apply invariant_bind.
  { destruct opts as [o|]; [|apply invariant_ret].
    apply invariant_bind; [apply Hz|]. intros _.
    destruct (mask o); [|apply invariant_ret].
    apply invariant_bind; [apply Hg|]. intros _. apply invariant_ret. }
  intros _. apply invariant_bind; [|intros _; apply invariant_ret].
  apply invariant_modify. intros w1. apply Hlog.
Qed.

(** X11. In the life of a layer, from its construction on and through any
    sequence of calls of its methods, whether they return or throw, a
    renderer exists only while the layer is on a map; and every such
    sequence ends. *)
Theorem renderer_only_on_a_map (ops : list Op) :
  (∀ w : World,
     renderer_on_a_map w →
     ∃ w' : World,
       final_world (forEach ops run_op w) = Some w' ∧ renderer_on_a_map w')
  ∧ (∀ (cls : LayerClass) (id : Nilable string) (opts : option Options)
       (w : World),
       ∃ w' : World,
         final_world ((new_Layer cls id opts;; forEach ops run_op) w) = Some w'
         ∧ renderer_on_a_map w').
Proof.
  assert (invariant renderer_on_a_map (forEach ops run_op)) as Hops.
  { apply invariant_forEach, renderer_on_a_map_run_op. }
  split.
  - intros w Hw. by apply invariant_final.
  - intros cls id opts. apply invariant_new_Layer; try exact Hops.
    + intros w H. by destruct (is_Some_None H).
    + intros z. pose proof (renderer_on_a_map_run_op (OpSetZIndex z)) as H.
      intros w Hw. specialize (H w Hw). simpl in H.
      unfold mbind, M_bind, bind in H.
      by destruct (setZIndex z w) as [a w'|e w'|].
    + intros g. pose proof (renderer_on_a_map_run_op (OpSetMask g)) as H.
      intros w Hw. specialize (H w Hw). simpl in H.
      unfold mbind, M_bind, bind in H.
      by destruct (setMask g w) as [a w'|e w'|].
    + intros w p; revert w; invariant_after_fire.
    + invariant_update.
    + intros [[? ? ? ? ? ? ? ? ?] ? ? ? ?] f. exact (fun H => H).
Qed.

(** X12. None of the layer's methods marks it as loaded: from its
    construction on, or from any state in which it is not loaded, and
    through any sequence of calls that fires no [layerload], [isLoaded()]
    stays false. *)
Theorem loaded_only_by_layerload (ops : list Op) :
  Forall (fun op => fires_layerload op = false) ops →
  (∀ w : World,
     isLoaded w = Ok false w →
     ∃ w' : World,
       final_world (forEach ops run_op w) = Some w' ∧ isLoaded w' = Ok false w')
  ∧ (∀ (cls : LayerClass) (id : Nilable string) (opts : option Options)
       (w : World),
       ∃ w' : World,
         final_world ((new_Layer cls id opts;; forEach ops run_op) w) = Some w'
         ∧ isLoaded w' = Ok false w').
Proof.
  intros Hops.
  assert (∀ w, isLoaded w = Ok false w ↔ not_loaded w) as Hiff.
  { intros w. unfold isLoaded, gets, not_loaded. split; [congruence|by intros ->]. }
  assert (invariant not_loaded (forEach ops run_op)) as Hinv.
  { induction Hops as [|op ops Hop _ IH]; simpl; [apply invariant_ret|].
    apply invariant_bind; [by apply not_loaded_run_op|]. intros _. exact IH. }
  split.
  - intros w Hw. setoid_rewrite Hiff. apply invariant_final; [done|by apply Hiff].
  - intros cls id opts w. setoid_rewrite Hiff. revert w.
    apply invariant_new_Layer; try exact Hinv.
    + done.
    + intros z. pose proof (not_loaded_run_op (OpSetZIndex z) eq_refl) as H.
      intros w Hw. specialize (H w Hw). simpl in H.
      unfold mbind, M_bind, bind in H.
      by destruct (setZIndex z w) as [a w'|e w'|].
    + intros g. pose proof (not_loaded_run_op (OpSetMask g) eq_refl) as H.
      intros w Hw. specialize (H w Hw). simpl in H.
      unfold mbind, M_bind, bind in H.
      by destruct (setMask g w) as [a w'|e w'|].
    + intros w p; revert w; invariant_after_fire.
    + invariant_update.
    + intros [[? ? ? ? ? ? ? ? ?] ? ? ? ?] f. exact (fun H => H).
Qed.

(** ** Visibility and the reported zoom range *)

(** X13. A layer on a map that reports itself visible has the map's zoom
    inside the range that [getMinZoom()] and [getMaxZoom()] report, provided
    the map's zoom is within the map's own range and not negative (an unset
    [minZoom] counts as 0 in [getMinZoom()]). *)
Theorem visible_within_reported_zoom_range (w w' : World) :
  attached w = true →
  (map_minZoom (the_map w) <= map_zoom (the_map w))%Q →
  (map_zoom (the_map w) <= map_maxZoom (the_map w))%Q →
  (0 <= map_zoom (the_map w))%Q →
  isVisible w = Ok (val true) w' →
  ∃ lo hi : Q,
    getMinZoom w = Ok (val lo) w
    ∧ getMaxZoom w = Ok (val hi) w
    ∧ (lo <= map_zoom (the_map w))%Q
    ∧ (map_zoom (the_map w) <= hi)%Q.
Proof.
  intros Ha Hlo Hhi H0 Hvis.
  rewrite isVisible_eq in Hvis. cbv zeta in Hvis. rewrite Ha in Hvis.
  destruct (isNumber _ && js_le _ 0); [discriminate Hvis|].
  rewrite andb_true_l in Hvis.
  destruct (_ || _) eqn:Hrange in Hvis; [discriminate Hvis|]. clear Hvis.
  apply zoom_in_range_iff in Hrange as [Hmax Hmin].
  rewrite getMinZoom_eq, getMaxZoom_eq, Ha.
  eexists _, _. split; [reflexivity|]. split; [reflexivity|]. split.
  - rewrite Math_max_Qmax. apply Q.max_lub; [done|].
    destruct (minZoom (options (this w))) as [| |mn] eqn:Hmn; try done.
    rewrite or_zero_val. by apply Hmin.
  - destruct (maxZoom (options (this w))) as [| |mx] eqn:Hmx; try done.
    rewrite Math_min_Qmin. apply Q.min_glb; [done|]. by apply Hmax.
Qed.

(** ** Calls that change nothing *)

(** X14. The getters other than [isVisible()] and [getCollisionIndex()]
    return and leave the layer, the map and the log exactly as they were, in
    every state; so do [load()], [remove()], [bringToFront()],
    [bringToBack()] and [_switchEvents()] on a layer that is on no map,
    [_bindMap()] without a map and [onConfig()] without a configuration. *)
Theorem idle_calls_change_nothing (op : Op) (w : World) :
  idle op w → run_op op w = Ok tt w.
Proof.
  intros Hidle.
  destruct op; simpl in Hidle; try (by destruct Hidle); subst; simpl.
  all: unfold load, getId, getZIndex, getMinZoom, getMaxZoom, getOpacity,
         isCanvasRender, getProjection, bringToFront, bringToBack, remove,
         getMask, isLoaded, getRenderer, _getRenderer, _switchEvents,
         _getLayerList, _getMask2DExtent, getMap, Map_get.
  all: unfold_monad.
  all: rewrite ?Hidle; try reflexivity.
  all: try (destruct emitter; simpl;
            match goal with
            | |- match ?x with _ => _ end _ = _ => by destruct x
            end).
  all: destruct (map (this w)) as [[]|]; try reflexivity.
  all: destruct (_mask (this w)) as [g|]; [destruct (_maskPainter g)|]; reflexivity.
Qed.

Lemma idle_calls_change_nothing_witness :
  run_op OpGetMinZoom attached_world = Ok tt attached_world
  ∧ run_op OpBringToBack detached_world = Ok tt detached_world.
Proof.
  split.
  - apply (idle_calls_change_nothing OpGetMinZoom attached_world). exact I.
  - apply (idle_calls_change_nothing OpBringToBack detached_world). reflexivity.
Defined.

(** ** Instances of the further properties *)

Lemma isVisible_after_show_hide_witness :
  (∃ w1 : World, show attached_world = Ok This w1 ∧ isVisible w1 = Ok (val true) w1)
  ∧ (∃ w1 : World,
       hide attached_world = Ok This w1 ∧ isVisible w1 = Ok (val false) w1).
Proof.
  destruct (isVisible_after_show_hide attached_world) as [Hs (w1 & Hh & Hv & _)].
  - intros q [= <-]. reflexivity.
  - right. split; intros x Hx; discriminate Hx.
  - split; [exact Hs|]. exists w1. split; [exact Hh|]. apply Hv. reflexivity.
Defined.

Lemma removeMask_clears_witness :
  ∃ w1 w2 : World,
    setMask polygon_mask rendered_world = Ok This w1
    ∧ is_Some (_mask (this w1))
    ∧ removeMask w1 = Ok This w2
    ∧ getMask w2 = Ok None w2.
Proof.
  destruct (proj2 (removeMask_clears rendered_world) polygon_mask)
    as (w1 & w2 & H1 & Hm & H2 & Hg & _).
  - right. left. reflexivity.
  - exists w1, w2. split; [exact H1|]. split; [exact Hm|]. split; [exact H2|exact Hg].
Defined.

Lemma _doRemove_detaches_and_keeps_configuration_witness :
  ∃ (w' : World) (r' : nat) (w2 : World),
    _doRemove indexed_world = Ok tt w'
    ∧ map (this w') = None
    ∧ getCollisionIndex w' = Ok (Some r') w2
    ∧ r' ≠ 1%nat
    ∧ indexes w2 !! 1%nat = Some [7%nat].
Proof.
  destruct (_doRemove_detaches_and_keeps_configuration indexed_world)
    as (w' & H & Hm & _ & _ & _ & _ & _ & _ & _ & Hidx).
  destruct (Hidx 1%nat eq_refl eq_refl) as (r' & w2 & Hg & Hr & Hi).
  - repeat constructor.
  - exists w', r', w2. split; [exact H|]. split; [exact Hm|]. split; [exact Hg|].
    split; [exact Hr|]. rewrite Hi. reflexivity.
Defined.

Lemma new_Layer_outcome_witness :
  (∃ w' : World,
     new_Layer sample_class (val "roads") (Some line_masked_options) detached_world
     = Throw InvalidMaskError w')
  ∧ (∃ w' : World,
       new_Layer sample_class (val "roads") None detached_world = Ok This w'
       ∧ _id (this w') = val "roads").
Proof.
  split.
  - destruct (proj1 (new_Layer_outcome sample_class (val "roads")
                       (Some line_masked_options) detached_world) line_mask)
      as (w' & H & _).
    + reflexivity.
    + intros [[H _]|[H|H]]; discriminate H.
    + exists w'. exact H.
  - destruct (proj2 (new_Layer_outcome sample_class (val "roads") None detached_world))
      as (w' & H & _ & _ & _ & _ & Hid & _).
    + intros g Hg. discriminate Hg.
    + exists w'. split; [exact H|exact Hid].
Defined.

Lemma bringToBack_idempotent_witness :
  ∃ w1 : World,
    bringToBack top_world = Ok This w1
    ∧ bringToBack w1 = Ok This w1
    ∧ (∃ z : Q, _zIndex (this w1) = val z ∧ (z == 2)%Q)
    ∧ head (layer_list w1) = Some This.
Proof.
  destruct (bringToBack_idempotent top_world) as (w1 & H1 & _ & Hset).
  - repeat constructor. vm_compute. discriminate.
  - intros _. right. left.
  - destruct (Hset (mkSibling 1 (val 3%Q))) as (Hz & Htop & Hsafe);
      [reflexivity | vm_compute; discriminate |].
    destruct Htop as [Hhead H2].
    { apply (Hsafe 3%Z); [reflexivity | split; vm_compute; [reflexivity|discriminate]]. }
    exists w1. split; [exact H1|]. split; [exact H2|]. split; [|exact Hhead].
    eexists. split; [exact Hz|]. vm_compute. reflexivity.
Defined.

Lemma detached_layer_stays_off_the_map_witness :
  match run_op OpShow detached_world with
  | Ok _ w' | Throw _ w' => off_the_map detached_world w'
  | OutOfFuel => False
  end
  ∧ match run_op (OpSetMask line_mask) detached_world with
    | Ok _ w' | Throw _ w' => off_the_map detached_world w'
    | OutOfFuel => False
    end.
Proof.
  split.
  - apply (detached_layer_stays_off_the_map OpShow detached_world); reflexivity.
  - apply (detached_layer_stays_off_the_map (OpSetMask line_mask) detached_world);
      reflexivity.
Defined.

Lemma renderer_only_on_a_map_witness :
  ∃ w' : World,
    final_world (forEach life_run run_op detached_world) = Some w'
    ∧ renderer_on_a_map w'.
Proof.
  apply (proj1 (renderer_only_on_a_map life_run) detached_world).
  intros [r Hr]. discriminate Hr.
Defined.

Lemma loaded_only_by_layerload_witness :
  ∃ w' : World,
    final_world (forEach life_run run_op detached_world) = Some w'
    ∧ isLoaded w' = Ok false w'.
Proof.
  apply (proj1 (loaded_only_by_layerload life_run (ltac:(repeat constructor)))
           detached_world).
  reflexivity.
Defined.

Lemma visible_within_reported_zoom_range_witness :
  ∃ lo hi : Q,
    getMinZoom attached_world = Ok (val lo) attached_world
    ∧ getMaxZoom attached_world = Ok (val hi) attached_world
    ∧ (lo <= 5)%Q
    ∧ (5 <= hi)%Q.
Proof.
  apply (visible_within_reported_zoom_range attached_world attached_world).
  - reflexivity.
  - vm_compute. discriminate.
  - vm_compute. discriminate.
  - vm_compute. discriminate.
  - reflexivity.
Defined.

